(** * Response-file expansion and flag-value adapters of package objabi

    A shallow embedding of [buildargv], [Flagparse], [versionFlag.Set] and
    [count.Set] from src/runtime/cgo/cgo.go (the objabi part of that
    file), together with the properties the specification states about
    them.

    Conventions of the embedding:
    - a Go [[]byte] is a [list byte]; a Go [string] is a Rocq [string]
      (both are plain byte sequences);
    - a Go [int] used as a slice index is a [nat]; the [int] stored in a
      [count] is a [Z] with the 64-bit wrap-around written out;
    - a loop whose trip count is not known beforehand takes a fuel argument
      and returns [None] when the fuel is used up; the fuel the callers
      pass is proved sufficient;
    - library functions used by the code ([os.Open], [ioutil.ReadAll],
      [strconv.Atoi], ...) are parameters of the section that uses them. *)

From Stdlib Require Import List Strings.String Strings.Ascii Strings.Byte.
From Stdlib Require Import NArith ZArith Bool Arith Lia.
Import ListNotations.

Local Open Scope string_scope.
Local Open Scope list_scope.
Local Open Scope nat_scope.

(** ** Go conversions between bytes and strings *)

(** [string(ch)] for [ch] of type [byte].  By the Go language specification
    (Conversions to and from a string type), converting an integer value,
    and [byte] is [uint8], yields the UTF-8 representation of the integer
    taken as a code point: a byte below 0x80 becomes the one-byte string
    holding it, a byte from 0x80 to 0xFF becomes the two bytes
    [0xC0 | ch>>6], [0x80 | ch&0x3F].  (Only the conversion of a whole
    [[]byte] keeps the bytes as they are.) *)
Definition string_of_byte (ch : byte) : string :=
  let n := Byte.to_N ch in
  if (n <? 128)%N then String (ascii_of_byte ch) EmptyString
  else String (ascii_of_N (192 + n / 64))
         (String (ascii_of_N (128 + n mod 64)) EmptyString).

(** [string(bs)] for [bs] of type [[]byte]: the same bytes, unchanged. *)
Definition string_of_bytes (bs : list byte) : string := string_of_list_byte bs.

(** What [arg += string(ch)] accumulates over a run of bytes. *)
Fixpoint accumulate (bs : list byte) : string :=
  match bs with
  | [] => EmptyString
  | ch :: bs' => (string_of_byte ch ++ accumulate bs')%string
  end.

(** ** The tokenizer: [buildargv] *)

Module Tokenizer.

(** The three parsing states declared by [var squote, dquote, bsquote bool]. *)
Record flags := mkFlags { squote : bool; dquote : bool; bsquote : bool }.

Definition no_flags : flags := mkFlags false false false.

(** A snapshot of the scanner after one execution of the inner loop body:
    the three flags and the argument accumulated so far.  The list of
    snapshots is a ghost history; it does not influence the result. *)
Definition snapshot : Type := flags * string.

(** [ISSPACE := func(ch byte) bool { ... }] *)
Definition ISSPACE (ch : byte) : bool :=
  Byte.eqb ch " " || Byte.eqb ch "009" || Byte.eqb ch "010"
  || Byte.eqb ch "011" || Byte.eqb ch "012" || Byte.eqb ch "013".

(** [for i := idx; i < len(data); i++ { if !ISSPACE(data[i]) { return i } }
    return len(data)], by recursion on the trip count [len(data) - i]. *)
Fixpoint consume_whitespace_for (n i : nat) (data : list byte) : nat :=
  match n with
  | O => List.length data
  | S n' =>
      if negb (ISSPACE (nth i data "000"%byte)) then i
      else consume_whitespace_for n' (S i) data
  end.

Definition consume_whitespace (idx : nat) (data : list byte) : nat :=
  consume_whitespace_for (List.length data - idx) idx data.

(** The if/else-if chain in the body of the inner loop, for the byte
    [ch = data[di]]: the new flags and the new value of [arg]. *)
Definition scan_byte (st : flags) (arg : string) (ch : byte) : flags * string :=
  if bsquote st then
    (mkFlags (squote st) (dquote st) false, (arg ++ string_of_byte ch)%string)
  else if Byte.eqb ch "\" then
    (mkFlags (squote st) (dquote st) true, arg)
  else if squote st then
    if Byte.eqb ch "'" then (mkFlags false (dquote st) (bsquote st), arg)
    else (st, (arg ++ string_of_byte ch)%string)
  else if dquote st then
    if Byte.eqb ch "034" then (mkFlags (squote st) false (bsquote st), arg)
    else (st, (arg ++ string_of_byte ch)%string)
  else
    if Byte.eqb ch "'" then (mkFlags true (dquote st) (bsquote st), arg)
    else if Byte.eqb ch "034" then (mkFlags (squote st) true (bsquote st), arg)
    else (st, (arg ++ string_of_byte ch)%string).

(** The guard of the [break] at the top of the inner loop. *)
Definition ends_argument (st : flags) (ch : byte) : bool :=
  ISSPACE ch && negb (squote st) && negb (dquote st) && negb (bsquote st).

(** The inner loop [for di < len(data) { ... di += 1 }] that scans one
    argument.  Returns [di], the flags, [arg] and the history at loop exit. *)
Fixpoint scan_argument (fuel : nat) (data : list byte) (di : nat) (st : flags)
    (arg : string) (hist : list snapshot)
  : option (nat * flags * string * list snapshot) :=
  match fuel with
  | O => None
  | S fuel' =>
      if di <? List.length data then
        let ch := nth di data "000"%byte in
        if ends_argument st ch then Some (di, st, arg, hist)
        else
          let '(st', arg') := scan_byte st arg ch in
          scan_argument fuel' data (S di) st' arg' (hist ++ [(st', arg')])
      else Some (di, st, arg, hist)
  end.

(** The argument loop [for di < len(data) { arg = empty; ...;
    result = append(result, arg); di = consume_whitespace(di, data) }]. *)
Fixpoint argument_loop (fuel : nat) (data : list byte) (di : nat) (st : flags)
    (result : list string) (hist : list snapshot)
  : option (list string * list snapshot) :=
  match fuel with
  | O => None
  | S fuel' =>
      if di <? List.length data then
        match scan_argument (S (List.length data)) data di st EmptyString hist with
        | None => None
        | Some (di', st', arg, hist') =>
            argument_loop fuel' data (consume_whitespace di' data) st'
              (result ++ [arg]) hist'
        end
      else Some (result, hist)
  end.

(** [buildargv] with its ghost history. *)
Definition buildargv_run (data : list byte)
  : option (list string * list snapshot) :=
  let result : list string := [] in
  let di := consume_whitespace 0 data in
  if List.length data <=? di then Some (result, [])
  else argument_loop (S (List.length data)) data di no_flags result [].

(** [func buildargv(data []byte) []string].  The [None] arm is dead code:
    [buildargv_run] always returns (lemma [buildargv_run_total]). *)
Definition buildargv (data : list byte) : list string :=
  match buildargv_run data with
  | Some (result, _) => result
  | None => []
  end.

(** *** Cursor view of the scan

    The same scan described on the unread part [data[di:]] of the buffer, in
    one pass.  [cur] is [None] between arguments (where [buildargv] runs
    [consume_whitespace]) and [Some arg] inside the inner loop.  These
    functions are proved equal to what [buildargv_run] returns (lemma
    [buildargv_run_cursor]); the properties of [buildargv] are then shown
    by induction on the unread part. *)

Fixpoint whitespace_prefix (rest : list byte) : list byte :=
  match rest with
  | ch :: rest' => if ISSPACE ch then ch :: whitespace_prefix rest' else []
  | [] => []
  end.

Fixpoint skip_whitespace (rest : list byte) : list byte :=
  match rest with
  | ch :: rest' => if ISSPACE ch then skip_whitespace rest' else rest
  | [] => []
  end.

Fixpoint tokens (rest : list byte) (st : flags) (cur : option string)
  : list string :=
  match rest with
  | [] => match cur with Some arg => [arg] | None => [] end
  | ch :: rest' =>
      match cur with
      | None =>
          if ISSPACE ch then tokens rest' st None
          else tokens rest' (fst (scan_byte st EmptyString ch))
                 (Some (snd (scan_byte st EmptyString ch)))
      | Some arg =>
          if ends_argument st ch then arg :: tokens rest' st None
          else tokens rest' (fst (scan_byte st arg ch))
                 (Some (snd (scan_byte st arg ch)))
      end
  end.

Fixpoint snapshots (rest : list byte) (st : flags) (cur : option string)
  : list snapshot :=
  match rest with
  | [] => []
  | ch :: rest' =>
      match cur with
      | None =>
          if ISSPACE ch then snapshots rest' st None
          else scan_byte st EmptyString ch
               :: snapshots rest' (fst (scan_byte st EmptyString ch))
                    (Some (snd (scan_byte st EmptyString ch)))
      | Some arg =>
          if ends_argument st ch then snapshots rest' st None
          else scan_byte st arg ch
               :: snapshots rest' (fst (scan_byte st arg ch))
                    (Some (snd (scan_byte st arg ch)))
      end
  end.

(** The flags and the accumulated argument when the scan reaches the end of
    the buffer: those of the last snapshot, or the initial ones. *)
Definition final_flags (hist : list snapshot) : flags :=
  fst (last hist (no_flags, EmptyString)).

Definition final_arg (hist : list snapshot) : string :=
  snd (last hist (no_flags, EmptyString)).

(** *** Whitespace-split words

    The specification's reading of a buffer without quotes and backslashes:
    its maximal runs of bytes that are not whitespace, in buffer order.
    [runs cur data] carries the run being read in [cur]. *)

Fixpoint runs (cur : option (list byte)) (data : list byte)
  : list (list byte) :=
  match data with
  | [] => match cur with Some w => [w] | None => [] end
  | ch :: data' =>
      if ISSPACE ch then
        match cur with
        | Some w => w :: runs None data'
        | None => runs None data'
        end
      else
        match cur with
        | Some w => runs (Some (w ++ [ch])) data'
        | None => runs (Some [ch]) data'
        end
  end.

Definition fields (data : list byte) : list (list byte) := runs None data.

(** A byte that is neither a quote character nor a backslash. *)
Definition plain (ch : byte) : bool :=
  negb (Byte.eqb ch "'" || Byte.eqb ch "034" || Byte.eqb ch "\").

(** A byte of the ASCII range, which [string(ch)] leaves as it is. *)
Definition is_ascii (ch : byte) : bool := (Byte.to_N ch <? 128)%N.

(** The history that [buildargv_run] returns. *)
Definition buildargv_hist (data : list byte) : list snapshot :=
  match buildargv_run data with
  | Some (_, hist) => hist
  | None => []
  end.

(** One of the three flags is set. *)
Definition flagged (st : flags) : bool := squote st || dquote st || bsquote st.

(** The scan reached the end of the buffer inside a quote or right after an
    unconsumed backslash. *)
Definition unterminated (hist : list snapshot) : bool :=
  flagged (final_flags hist).

(** At most one of the two quote flags is set. *)
Definition exclusive (s : snapshot) : bool :=
  negb (squote (fst s) && dquote (fst s)).

End Tokenizer.

(** ** Go string functions used by the code *)

Module GoStrings.

(** The slice expression [s[n:]].  The code only slices within bounds; out
    of bounds this model returns the empty string. *)
Fixpoint string_from (n : nat) (s : string) : string :=
  match n, s with
  | O, _ => s
  | S n', String _ s' => string_from n' s'
  | S _, EmptyString => EmptyString
  end.

(** [strings.HasPrefix(s, prefix)] *)
Definition strings_HasPrefix (s prefix : string) : bool := String.prefix prefix s.

(** [strings.HasSuffix(s, suffix)]:
    [len(s) >= len(suffix) && s[len(s)-len(suffix):] == suffix]. *)
Definition strings_HasSuffix (s suffix : string) : bool :=
  (String.length suffix <=? String.length s)
  && String.eqb (string_from (String.length s - String.length suffix) s) suffix.

(** [strings.TrimSuffix(s, suffix)]: [s[:len(s)-len(suffix)]] when [s] has
    the suffix, [s] otherwise. *)
Definition strings_TrimSuffix (s suffix : string) : string :=
  if strings_HasSuffix s suffix
  then String.substring 0 (String.length s - String.length suffix) s
  else s.

(** [strings.LastIndex(s, substr)]: the index of the last instance of
    [substr] in [s], or -1.  [LastIndex_from i s substr] searches [s], whose
    first byte has index [i]. *)
Fixpoint LastIndex_from (i : Z) (s substr : string) : Z :=
  match s with
  | EmptyString => if String.prefix substr EmptyString then i else (-1)%Z
  | String _ s' =>
      let later := LastIndex_from (i + 1) s' substr in
      if (0 <=? later)%Z then later
      else if String.prefix substr s then i else (-1)%Z
  end.

Definition strings_LastIndex (s substr : string) : Z :=
  LastIndex_from 0 s substr.

(** The byte [c] occurs in [s]. *)
Fixpoint occurs (c : ascii) (s : string) : bool :=
  match s with
  | EmptyString => false
  | String c' s' => Ascii.eqb c' c || occurs c s'
  end.

(** The line feed that ends a format string. *)
Definition newline : string := String "010" EmptyString.

End GoStrings.

(** ** The argument expander: [Flagparse] *)

Module Expander.
Import Tokenizer GoStrings.

Section Flagparse.

(** The operating-system interface the loop uses.  [os_Open] returns the
    pair [(file, err)] of [os.Open]: the file is [None] (nil) when the call
    fails and the error is [None] (nil) when it succeeds.
    [ioutil_ReadAll] and [File_Close] take the file as the code passes it,
    nil or not.  [is_not_exist] tells of a non-nil error whether it reports
    that the file does not exist. *)
Variable File : Type.
Variable error : Type.
Variable os_Open : string -> option File * option error.
Variable is_not_exist : error -> bool.
Variable ioutil_ReadAll : option File -> list byte * option error.
Variable File_Close : option File -> option error.

(** [os.IsNotExist(err)], which is false of the nil error. *)
Definition os_IsNotExist (err : option error) : bool :=
  match err with
  | Some e => is_not_exist e
  | None => false
  end.

(** A message handed to package log: the format string and its two
    arguments, the file name and the error. *)
Record message := mkMessage {
  msg_format : string;
  msg_file : string;
  msg_error : option error
}.

(** How the loop ends: it runs to its end and [os.Args = args] is executed,
    or [log.Fatalf] writes [msg] and stops the process.  [log] holds the
    messages written by [log.Printf] until then. *)
Inductive outcome :=
| Returned (args : list string) (log : list message)
| Fatal (log : list message) (msg : message).

(** [for _, arg := range os.Args { ... }], with [args] and the log written
    so far. *)
Fixpoint expand (os_Args : list string) (args : list string)
    (log : list message) : outcome :=
  match os_Args with
  | [] => Returned args log
  | arg :: os_Args' =>
      if negb (strings_HasPrefix arg "@") || (String.length arg <? 1) then
        expand os_Args' (args ++ [arg]) log
      else
        let '(file, err) := os_Open (string_from 1 arg) in
        if os_IsNotExist err then
          expand os_Args' (args ++ [arg])
            (log ++ [mkMessage
                       ("Unable to open response file (%s): %#v" ++ newline)
                       (string_from 1 arg) err])
        else
          let '(contents, err) := ioutil_ReadAll file in
          match err with
          | Some e =>
              Fatal log
                (mkMessage
                   "Unable to read contents of response file (%s): %#v"
                   (string_from 1 arg) (Some e))
          | None =>
              let args :=
                fold_left (fun args row => args ++ [row])
                  (buildargv contents) args in
              match File_Close file with
              | Some e =>
                  Fatal log
                    (mkMessage "Unable to close response file (%s): %#v"
                       (string_from 1 arg) (Some e))
              | None => expand os_Args' args log
              end
          end
  end.

(** [func Flagparse(usage func())] up to [os.Args = args]; the result is
    the new value of [os.Args].  Setting [flag.Usage] and the final call
    of [flag.Parse] belong to package flag and are left out. *)
Definition Flagparse (os_Args : list string) : outcome :=
  expand os_Args [] [].

(** What one argument stands for in the expanded list: itself when it is
    not a response-file reference or the file does not exist, else the
    arguments read from the file. *)
Definition expansion (arg : string) : list string :=
  if strings_HasPrefix arg "@" then
    if os_IsNotExist (snd (os_Open (string_from 1 arg))) then [arg]
    else buildargv (fst (ioutil_ReadAll (fst (os_Open (string_from 1 arg)))))
  else [arg].

(** The diagnostic one argument leaves in the log: one message when it
    names a file that does not exist. *)
Definition diagnostic (arg : string) : list message :=
  if strings_HasPrefix arg "@" then
    if os_IsNotExist (snd (os_Open (string_from 1 arg))) then
      [mkMessage ("Unable to open response file (%s): %#v" ++ newline)
         (string_from 1 arg) (snd (os_Open (string_from 1 arg)))]
    else []
  else [].

(** The file named by [arg] does not exist. *)
Definition missing (arg : string) : Prop :=
  os_IsNotExist (snd (os_Open (string_from 1 arg))) = true.

(** The file named by [arg] is opened, read to its end and closed without
    error. *)
Definition resolves (arg : string) : Prop :=
  exists file,
    os_Open (string_from 1 arg) = (Some file, None)
    /\ snd (ioutil_ReadAll (Some file)) = None
    /\ File_Close (Some file) = None.

End Flagparse.

Arguments mkMessage {error} msg_format msg_file msg_error.
Arguments Returned {error} args log.
Arguments Fatal {error} log msg.

End Expander.

(** *** A small file system to run [Flagparse] on

    Each path is absent, present but not openable (permission denied), or a
    regular file whose read or close may fail.  Reading and closing the nil
    file return the invalid-argument error, as the methods of [os.File] do
    on a nil receiver. *)

Module SampleOS.

Inductive errno := ENOENT | EACCES | EINVAL | EIO.

Inductive entry :=
| Regular (contents : list byte)
| Denied
| ReadFails (partial : list byte)
| CloseFails (contents : list byte).

Definition filesystem : Type := list (string * entry).

Fixpoint lookup (fs : filesystem) (path : string) : option entry :=
  match fs with
  | [] => None
  | (p, e) :: fs' => if String.eqb p path then Some e else lookup fs' path
  end.

Definition os_Open (fs : filesystem) (path : string)
  : option entry * option errno :=
  match lookup fs path with
  | None => (None, Some ENOENT)
  | Some Denied => (None, Some EACCES)
  | Some e => (Some e, None)
  end.

Definition is_not_exist (e : errno) : bool :=
  match e with ENOENT => true | _ => false end.

Definition ioutil_ReadAll (file : option entry) : list byte * option errno :=
  match file with
  | None => ([], Some EINVAL)
  | Some (Regular contents) => (contents, None)
  | Some (CloseFails contents) => (contents, None)
  | Some (ReadFails partial) => (partial, Some EIO)
  | Some Denied => ([], Some EACCES)
  end.

Definition File_Close (file : option entry) : option errno :=
  match file with
  | None => Some EINVAL
  | Some (CloseFails _) => Some EIO
  | Some _ => None
  end.

Definition Flagparse_in (fs : filesystem) (os_Args : list string)
  : Expander.outcome errno :=
  Expander.Flagparse entry errno (os_Open fs) is_not_exist
    ioutil_ReadAll File_Close os_Args.

End SampleOS.

(** ** The counting flag: [count] *)

Module Count.

(** A Go [int] (64 bits): the value of an arithmetic result after
    wrap-around. *)
Definition int_min : Z := (- 2 ^ 63)%Z.
Definition int_max : Z := (2 ^ 63 - 1)%Z.
Definition int_wrap (z : Z) : Z := ((z + 2 ^ 63) mod 2 ^ 64 - 2 ^ 63)%Z.

(** The value of [fmt.Errorf(format, s)]: the format string and its
    argument. *)
Record error := Errorf { format : string; operand : string }.

Section CountSet.

(** [strconv.Atoi]: the integer, or [None] when it returns an error. *)
Variable strconv_Atoi : string -> option Z.

(** [func (c *count) Set(s string) error], as a function from the argument
    and the stored count to the new stored count and the returned error. *)
Definition count_Set (s : string) (c : Z) : Z * option error :=
  if String.eqb s "true" then (int_wrap (c + 1), None)
  else if String.eqb s "false" then (0%Z, None)
  else
    match strconv_Atoi s with
    | None => (c, Some (Errorf "invalid count %q" s))
    | Some n => (n, None)
    end.

(** The stored count after a sequence of calls of [Set]. *)
Definition count_after (calls : list string) (c : Z) : Z :=
  fold_left (fun c s => fst (count_Set s c)) calls c.

End CountSet.

(** A decimal parser to run [count_Set] with: an optional sign, then one or
    more decimal digits, the value within the range of [int]. *)
Fixpoint digits (s : string) (acc : Z) : option Z :=
  match s with
  | EmptyString => Some acc
  | String ch s' =>
      let n := N_of_ascii ch in
      if ((48 <=? n) && (n <=? 57))%N
      then digits s' (10 * acc + Z.of_N (n - 48))%Z
      else None
  end.

Definition in_int_range (z : Z) : option Z :=
  if ((int_min <=? z) && (z <=? int_max))%Z then Some z else None.

Definition decimal_Atoi (s : string) : option Z :=
  match s with
  | EmptyString => None
  | String "-" EmptyString => None
  | String "+" EmptyString => None
  | String "-" s' =>
      match digits s' 0 with Some z => in_int_range (- z) | None => None end
  | String "+" s' =>
      match digits s' 0 with Some z => in_int_range z | None => None end
  | _ => match digits s 0 with Some z => in_int_range z | None => None end
  end.

End Count.

(** ** The version flag: [versionFlag] *)

Module Version.
Import GoStrings.

(** How [Set] ends: it prints and calls [os.Exit], or indexing the empty
    [os.Args] panics. *)
Inductive termination :=
| Exited (stdout : string) (status : Z)
| Panicked.

Section VersionSet.

(** The package-level strings [Set] reads: [Version], the results of
    [Expstring()] and [DefaultExpstring()], and [buildID], which the linker
    fills in. *)
Variable Version : string.
Variable Expstring : string.
Variable DefaultExpstring : string.
Variable buildID : string.

(** [name = name[strings.LastIndex(name, sep)+1:]] *)
Definition after_last (name sep : string) : string :=
  string_from (Z.to_nat (strings_LastIndex name sep + 1)) name.

(** The three assignments to [name] after [name := os.Args[0]]. *)
Definition program_name (arg0 : string) : string :=
  let name := arg0 in
  let name := after_last name "/" in
  let name := after_last name "\" in
  strings_TrimSuffix name ".exe".

(** The value of [p] after [p := Expstring()] and the test against
    [DefaultExpstring()]. *)
Definition experiment : string :=
  if String.eqb Expstring DefaultExpstring then EmptyString else Expstring.

(** [func (versionFlag) Set(s string) error] *)
Definition versionFlag_Set (os_Args : list string) (s : string) : termination :=
  match os_Args with
  | [] => Panicked
  | arg0 :: _ =>
      let name := program_name arg0 in
      let p := experiment in
      let sep := if negb (String.eqb p EmptyString) then " " else EmptyString in
      let p :=
        if String.eqb s "full" && strings_HasPrefix Version "devel"
        then (p ++ " buildID=" ++ buildID)%string
        else p in
      Exited (name ++ " version " ++ Version ++ sep ++ p ++ newline)%string 0
  end.

End VersionSet.

End Version.

(** ** Further definitions for the properties of the scan *)

Module Cursor.
Import Tokenizer.

(** The arguments the scan of [rest] has appended to [result] when it
    reaches the end of [rest], without the argument still being read. *)
Fixpoint completed (rest : list byte) (st : flags) (cur : option string)
  : list string :=
  match rest with
  | [] => []
  | ch :: rest' =>
      match cur with
      | None =>
          if ISSPACE ch then completed rest' st None
          else completed rest' (fst (scan_byte st EmptyString ch))
                 (Some (snd (scan_byte st EmptyString ch)))
      | Some arg =>
          if ends_argument st ch then arg :: completed rest' st None
          else completed rest' (fst (scan_byte st arg ch))
                 (Some (snd (scan_byte st arg ch)))
      end
  end.

(** The flags and the argument being read, if any, when the scan reaches
    the end of [rest]. *)
Fixpoint pending (rest : list byte) (st : flags) (cur : option string)
  : flags * option string :=
  match rest with
  | [] => (st, cur)
  | ch :: rest' =>
      match cur with
      | None =>
          if ISSPACE ch then pending rest' st None
          else pending rest' (fst (scan_byte st EmptyString ch))
                 (Some (snd (scan_byte st EmptyString ch)))
      | Some arg =>
          if ends_argument st ch then pending rest' st None
          else pending rest' (fst (scan_byte st arg ch))
                 (Some (snd (scan_byte st arg ch)))
      end
  end.

(** A word written with a backslash before each of its bytes. *)
Definition backslash_escape (w : list byte) : list byte :=
  flat_map (fun ch => ["\"%byte; ch]) w.

(** The number of bytes of a list of arguments. *)
Definition total_size (args : list string) : nat :=
  fold_right (fun arg n => String.length arg + n) 0 args.

End Cursor.

Module CountCalls.

(** The arguments [Set] accepts, that is, for which it returns the nil
    error. *)
Definition accepted (strconv_Atoi : string -> option Z) (s : string) : bool :=
  String.eqb s "true" || String.eqb s "false"
  || match strconv_Atoi s with Some _ => true | None => false end.

End CountCalls.

(** * Properties *)

(** ** The tokenizer *)

Module TokenizerFacts.
Import Tokenizer.

Lemma whitespace_prefix_skip (rest : list byte) :
  whitespace_prefix rest ++ skip_whitespace rest = rest.
Proof.
  induction rest as [|ch rest IH]; simpl; [reflexivity|].
  destruct (ISSPACE ch); simpl; [now rewrite IH | reflexivity].
Qed.

Lemma skip_whitespace_head (rest : list byte) ch rest' :
  skip_whitespace rest = ch :: rest' -> ISSPACE ch = false.
Proof.
  induction rest as [|c rest IH]; simpl; [discriminate|].
  destruct (ISSPACE c) eqn:E; [exact IH|].
  intros H; injection H as -> _; exact E.
Qed.

Lemma skip_whitespace_length (rest : list byte) :
  List.length (skip_whitespace rest) <= List.length rest.
Proof.
  induction rest as [|c rest IH]; simpl; [lia|].
  destruct (ISSPACE c); simpl; lia.
Qed.

Lemma tokens_skip_whitespace (rest : list byte) st :
  tokens rest st None = tokens (skip_whitespace rest) st None.
Proof.
  induction rest as [|c rest IH]; simpl; [reflexivity|].
  destruct (ISSPACE c) eqn:E; [exact IH|].
  simpl; now rewrite E.
Qed.

Lemma snapshots_skip_whitespace (rest : list byte) st :
  snapshots rest st None = snapshots (skip_whitespace rest) st None.
Proof.
  induction rest as [|c rest IH]; simpl; [reflexivity|].
  destruct (ISSPACE c) eqn:E; [exact IH|].
  simpl; now rewrite E.
Qed.

(** [consume_whitespace] moves the index over the whitespace prefix of the
    unread part. *)
Lemma consume_whitespace_for_cursor (rest pre : list byte) :
  consume_whitespace_for (List.length rest) (List.length pre) (pre ++ rest)
  = List.length (pre ++ whitespace_prefix rest).
Proof.
  revert pre; induction rest as [|ch rest IH]; intros pre; simpl.
  - reflexivity.
  - rewrite nth_middle. destruct (ISSPACE ch) eqn:E; simpl.
    + replace (pre ++ ch :: rest) with ((pre ++ [ch]) ++ rest)
        by (now rewrite <- app_assoc).
      replace (S (List.length pre)) with (List.length (pre ++ [ch]))
        by (rewrite length_app; simpl; lia).
      rewrite IH. now rewrite <- app_assoc.
    + now rewrite app_nil_r.
Qed.

Lemma consume_whitespace_cursor (rest pre : list byte) :
  consume_whitespace (List.length pre) (pre ++ rest)
  = List.length (pre ++ whitespace_prefix rest).
Proof.
  unfold consume_whitespace.
  replace (List.length (pre ++ rest) - List.length pre) with (List.length rest)
    by (rewrite length_app; lia).
  apply consume_whitespace_for_cursor.
Qed.

Lemma app_cons_shift {A} (pre : list A) (x : A) (rest : list A) :
  pre ++ x :: rest = (pre ++ [x]) ++ rest.
Proof. now rewrite <- app_assoc. Qed.

Lemma length_snoc {A} (pre : list A) (x : A) :
  List.length (pre ++ [x]) = S (List.length pre).
Proof. rewrite length_app; simpl; lia. Qed.

(** The inner loop, started at index [length pre] of [pre ++ rest] with
    more fuel than unread bytes, returns; it stops at the end of the buffer
    or at a byte that ends the argument, and what it returns is what the
    cursor view computes. *)
Lemma scan_argument_cursor (rest : list byte) :
  forall pre st arg hist fuel,
    List.length rest < fuel ->
    exists used rest' st' arg' h,
      rest = used ++ rest'
      /\ scan_argument fuel (pre ++ rest) (List.length pre) st arg hist
         = Some (List.length (pre ++ used), st', arg', hist ++ h)
      /\ tokens rest st (Some arg) = arg' :: tokens rest' st' None
      /\ snapshots rest st (Some arg) = h ++ snapshots rest' st' None
      /\ (forall ch t, rest = ch :: t -> ends_argument st ch = false ->
          used <> []).
Proof.
  induction rest as [|ch rest IH]; intros pre st arg hist fuel Hfuel.
  - exists [], [], st, arg, [].
    destruct fuel as [|fuel]; [simpl in Hfuel; lia|].
    simpl. rewrite !app_nil_r.
    rewrite Nat.ltb_irrefl. repeat split; try reflexivity.
    intros ? ? H; discriminate H.
  - destruct fuel as [|fuel]; [simpl in Hfuel; lia|].
    simpl in Hfuel.
    assert (Hlt : (List.length pre <? List.length (pre ++ ch :: rest)) = true).
    { apply Nat.ltb_lt. rewrite length_app; simpl; lia. }
    destruct (ends_argument st ch) eqn:Eend.
    + exists [], (ch :: rest), st, arg, [].
      simpl. rewrite Hlt, nth_middle, Eend, !app_nil_r.
      repeat split; try reflexivity.
      * unfold ends_argument in Eend.
        destruct (ISSPACE ch); [reflexivity | discriminate Eend].
      * unfold ends_argument in Eend.
        destruct (ISSPACE ch); [reflexivity | discriminate Eend].
      * intros c t H E. injection H as <- <-. congruence.
    + destruct (scan_byte st arg ch) as [st1 arg1] eqn:Estep.
      destruct (IH (pre ++ [ch]) st1 arg1 (hist ++ [(st1, arg1)]) fuel)
        as (used & rest' & st' & arg' & h & Hsplit & Hrun & Htok & Hsnap & _);
        [lia|].
      exists (ch :: used), rest', st', arg', ((st1, arg1) :: h).
      repeat split.
      * simpl; now rewrite Hsplit.
      * simpl. rewrite Hlt, nth_middle, Eend, Estep.
        rewrite (app_cons_shift pre ch rest), <- (length_snoc pre ch), Hrun.
        now rewrite <- !app_assoc.
      * simpl. rewrite Eend, Estep. exact Htok.
      * simpl. rewrite Eend, Estep. simpl. now rewrite Hsnap.
      * intros; discriminate.
Qed.

(** The argument loop, started at an index where the unread part is empty
    or begins with a byte that is not whitespace. *)
Lemma argument_loop_cursor (fuel : nat) :
  forall rest pre st result hist,
    List.length rest < fuel ->
    (forall ch t, rest = ch :: t -> ISSPACE ch = false) ->
    argument_loop fuel (pre ++ rest) (List.length pre) st result hist
    = Some (result ++ tokens rest st None, hist ++ snapshots rest st None).
Proof.
  induction fuel as [|fuel IH]; intros rest pre st result hist Hfuel Hhead;
    [lia|].
  destruct rest as [|ch rest].
  - simpl. rewrite app_nil_r, Nat.ltb_irrefl, !app_nil_r. reflexivity.
  - assert (Hsp : ISSPACE ch = false) by (eapply Hhead; reflexivity).
    assert (Hend : ends_argument st ch = false)
      by (unfold ends_argument; now rewrite Hsp).
    assert (Hlt : (List.length pre <? List.length (pre ++ ch :: rest)) = true).
    { apply Nat.ltb_lt. rewrite length_app; simpl; lia. }
    destruct (scan_argument_cursor (ch :: rest) pre st EmptyString hist
                (S (List.length (pre ++ ch :: rest))))
      as (used & rest' & st' & arg' & h & Hsplit & Hrun & Htok & Hsnap & Hprog).
    { rewrite length_app; simpl; lia. }
    specialize (Hprog ch rest eq_refl Hend).
    cbn [argument_loop]. rewrite Hlt, Hrun.
    rewrite Hsplit, app_assoc, consume_whitespace_cursor.
    rewrite <- (whitespace_prefix_skip rest') at 1.
    rewrite (app_assoc (pre ++ used)).
    rewrite IH.
    + f_equal. f_equal.
      * rewrite <- app_assoc. f_equal.
        rewrite <- Hsplit. cbn [tokens]. rewrite Hsp.
        cbn [tokens] in Htok. rewrite Hend in Htok. rewrite Htok.
        simpl. now rewrite <- tokens_skip_whitespace.
      * rewrite <- app_assoc. f_equal.
        rewrite <- Hsplit. cbn [snapshots]. rewrite Hsp.
        cbn [snapshots] in Hsnap. rewrite Hend in Hsnap. rewrite Hsnap.
        now rewrite <- snapshots_skip_whitespace.
    + assert (List.length (ch :: rest) = List.length used + List.length rest')
        by (rewrite Hsplit, length_app; reflexivity).
      pose proof (skip_whitespace_length rest').
      destruct used; [congruence|]. simpl in *. lia.
    + intros c t Hc. eapply skip_whitespace_head; exact Hc.
Qed.

(** [buildargv_run] always returns, and returns what the cursor view
    computes from the whole buffer. *)
Lemma buildargv_run_cursor (data : list byte) :
  buildargv_run data
  = Some (tokens data no_flags None, snapshots data no_flags None).
Proof.
  unfold buildargv_run.
  pose proof (consume_whitespace_cursor data []) as Hc. simpl in Hc.
  rewrite Hc.
  destruct (List.length data <=? List.length (whitespace_prefix data)) eqn:E.
  - apply Nat.leb_le in E.
    assert (Hskip : skip_whitespace data = []).
    { pose proof (whitespace_prefix_skip data) as H.
      apply (f_equal (@List.length byte)) in H. rewrite length_app in H.
      destruct (skip_whitespace data); [reflexivity | simpl in H; lia]. }
    rewrite tokens_skip_whitespace, snapshots_skip_whitespace, Hskip.
    reflexivity.
  - rewrite <- (whitespace_prefix_skip data) at 2.
    rewrite argument_loop_cursor.
    + simpl. now rewrite <- tokens_skip_whitespace, <- snapshots_skip_whitespace.
    + pose proof (skip_whitespace_length data). lia.
    + intros c t Hhead. eapply skip_whitespace_head; exact Hhead.
Qed.

Lemma buildargv_run_total (data : list byte) :
  exists hist, buildargv_run data = Some (buildargv data, hist).
Proof.
  unfold buildargv. rewrite buildargv_run_cursor. eexists; reflexivity.
Qed.

Lemma buildargv_cursor (data : list byte) :
  buildargv data = tokens data no_flags None.
Proof. unfold buildargv. now rewrite buildargv_run_cursor. Qed.

(** *** Strings *)

Lemma string_app_nil_r (s : string) : (s ++ EmptyString)%string = s.
Proof. induction s as [|c s IH]; simpl; [reflexivity | now rewrite IH]. Qed.

Lemma string_app_assoc (s1 s2 s3 : string) :
  ((s1 ++ s2) ++ s3)%string = (s1 ++ (s2 ++ s3))%string.
Proof. induction s1 as [|c s1 IH]; simpl; [reflexivity | now rewrite IH]. Qed.

Lemma accumulate_app (bs1 bs2 : list byte) :
  accumulate (bs1 ++ bs2) = (accumulate bs1 ++ accumulate bs2)%string.
Proof.
  induction bs1 as [|c bs1 IH]; simpl; [reflexivity|].
  now rewrite IH, string_app_assoc.
Qed.

Lemma accumulate_snoc (bs : list byte) (ch : byte) :
  accumulate (bs ++ [ch]) = (accumulate bs ++ string_of_byte ch)%string.
Proof. rewrite accumulate_app. simpl. now rewrite string_app_nil_r. Qed.

Lemma accumulate_ascii (bs : list byte) :
  forallb is_ascii bs = true -> accumulate bs = string_of_bytes bs.
Proof.
  induction bs as [|c bs IH]; simpl; [reflexivity|].
  intros H. apply andb_true_iff in H as [Hc Hbs].
  unfold string_of_byte. unfold is_ascii in Hc. rewrite Hc. simpl.
  unfold string_of_bytes in *. now rewrite IH.
Qed.

(** *** Buffers without quotes and backslashes *)

Lemma scan_byte_plain (arg : string) (ch : byte) :
  plain ch = true ->
  scan_byte no_flags arg ch = (no_flags, (arg ++ string_of_byte ch)%string).
Proof.
  unfold plain, scan_byte; simpl.
  destruct (Byte.eqb ch "\"), (Byte.eqb ch "'"), (Byte.eqb ch "034");
    simpl; intros H; try discriminate H; reflexivity.
Qed.

Lemma tokens_plain (rest : list byte) :
  forallb plain rest = true ->
  (forall w, tokens rest no_flags (Some (accumulate w))
             = map accumulate (runs (Some w) rest))
  /\ tokens rest no_flags None = map accumulate (runs None rest).
Proof.
  induction rest as [|ch rest IH]; simpl; intros H.
  - split; reflexivity.
  - apply andb_true_iff in H as [Hch Hrest].
    destruct (IH Hrest) as [IHsome IHnone].
    unfold ends_argument; simpl. rewrite andb_true_r.
    destruct (ISSPACE ch); split; intros;
      rewrite ?scan_byte_plain by exact Hch; simpl.
    + now rewrite IHnone.
    + exact IHnone.
    + rewrite <- accumulate_snoc. apply IHsome.
    + rewrite <- (IHsome [ch]). simpl. now rewrite string_app_nil_r.
Qed.

(** *** Whitespace-split words *)

Lemma runs_word (w rest : list byte) :
  forall cur,
    forallb (fun ch => negb (ISSPACE ch)) w = true ->
    w <> [] \/ cur <> None ->
    runs cur (w ++ rest)
    = runs (Some (match cur with Some w0 => w0 ++ w | None => w end)) rest.
Proof.
  induction w as [|ch w IH]; intros cur Hw Hne.
  - destruct cur as [w0|]; [now rewrite app_nil_r | destruct Hne; congruence].
  - simpl in Hw. apply andb_true_iff in Hw as [Hch Hw].
    apply negb_true_iff in Hch. simpl. rewrite Hch.
    destruct cur as [w0|]; rewrite IH by (try exact Hw; right; discriminate).
    + now rewrite <- app_assoc.
    + reflexivity.
Qed.

(** [fields] is determined by these equations: whitespace before a word is
    dropped, a word runs up to the next whitespace byte or to the end of
    the buffer, and the empty buffer has no word. *)
Lemma fields_equations :
  fields [] = []
  /\ (forall ch rest, ISSPACE ch = true -> fields (ch :: rest) = fields rest)
  /\ (forall w,
         forallb (fun ch => negb (ISSPACE ch)) w = true -> w <> [] ->
         fields w = [w])
  /\ (forall w ch rest,
         forallb (fun ch => negb (ISSPACE ch)) w = true -> w <> [] ->
         ISSPACE ch = true ->
         fields (w ++ ch :: rest) = w :: fields rest).
Proof.
  unfold fields. repeat apply conj.
  - reflexivity.
  - intros ch rest H. simpl. now rewrite H.
  - intros w Hw Hne. rewrite <- (app_nil_r w) at 1.
    rewrite runs_word by (try exact Hw; now left). reflexivity.
  - intros w ch rest Hw Hne Hch.
    rewrite runs_word by (try exact Hw; now left). simpl. now rewrite Hch.
Qed.

(** On a buffer without quotes and backslashes [buildargv] returns, for
    each whitespace-split word in order, what [arg += string(ch)]
    accumulates over the bytes of the word. *)
Lemma buildargv_plain (data : list byte) :
  forallb plain data = true ->
  buildargv data = map accumulate (fields data).
Proof.
  intros H. rewrite buildargv_cursor. now apply tokens_plain.
Qed.

Lemma runs_ascii (data : list byte) :
  forallb is_ascii data = true ->
  forall cur,
    match cur with Some w => forallb is_ascii w = true | None => True end ->
    Forall (fun w => forallb is_ascii w = true) (runs cur data).
Proof.
  induction data as [|ch data IH]; simpl; intros H cur Hcur.
  - destruct cur; constructor; [exact Hcur | constructor].
  - apply andb_true_iff in H as [Hch Hdata].
    destruct (ISSPACE ch), cur as [w|].
    + constructor; [exact Hcur | now apply IH].
    + now apply IH.
    + apply IH; [exact Hdata|].
      rewrite forallb_app, Hcur. simpl. now rewrite Hch.
    + apply IH; [exact Hdata|]. simpl. now rewrite Hch.
Qed.

(** On an ASCII buffer without quotes and backslashes [buildargv] returns
    exactly the whitespace-split words. *)
Lemma buildargv_plain_ascii (data : list byte) :
  forallb plain data = true ->
  forallb is_ascii data = true ->
  buildargv data = map string_of_bytes (fields data).
Proof.
  intros Hplain Hascii. rewrite buildargv_plain by exact Hplain.
  apply map_ext_in. intros w Hw. apply accumulate_ascii.
  pose proof (runs_ascii data Hascii None I) as Hall.
  rewrite Forall_forall in Hall. now apply Hall.
Qed.

Lemma buildargv_hist_cursor (data : list byte) :
  buildargv_hist data = snapshots data no_flags None.
Proof. unfold buildargv_hist. now rewrite buildargv_run_cursor. Qed.

Lemma buildargv_run_eq (data : list byte) :
  buildargv_run data = Some (buildargv data, buildargv_hist data).
Proof.
  rewrite buildargv_cursor, buildargv_hist_cursor. apply buildargv_run_cursor.
Qed.

(** *** Whitespace bytes *)

Lemma ISSPACE_cases (ch : byte) :
  ISSPACE ch = true ->
  ch = " "%byte \/ ch = "009"%byte \/ ch = "010"%byte
  \/ ch = "011"%byte \/ ch = "012"%byte \/ ch = "013"%byte.
Proof.
  unfold ISSPACE. rewrite !orb_true_iff.
  intros [[[[[H|H]|H]|H]|H]|H]; apply Byte.byte_dec_bl in H; tauto.
Qed.

Lemma string_of_byte_space (ch : byte) :
  ISSPACE ch = true ->
  string_of_byte ch = String (ascii_of_byte ch) EmptyString.
Proof.
  intros H.
  destruct (ISSPACE_cases ch H) as [E|[E|[E|[E|[E|E]]]]]; subst ch; reflexivity.
Qed.

Lemma ISSPACE_not_special (ch : byte) :
  ISSPACE ch = true ->
  Byte.eqb ch "'" = false /\ Byte.eqb ch "034" = false
  /\ Byte.eqb ch "\" = false.
Proof.
  intros H.
  destruct (ISSPACE_cases ch H) as [E|[E|[E|[E|[E|E]]]]]; subst ch;
    repeat split; reflexivity.
Qed.

(** *** The argument under construction is always emitted *)

Lemma tokens_inside_nonempty (rest : list byte) :
  forall st arg, tokens rest st (Some arg) <> [].
Proof.
  induction rest as [|ch rest IH]; intros st arg; simpl.
  - discriminate.
  - destruct (ends_argument st ch); [discriminate | apply IH].
Qed.

Lemma tokens_nonempty (rest : list byte) :
  forall st,
    existsb (fun ch => negb (ISSPACE ch)) rest = true ->
    tokens rest st None <> [].
Proof.
  induction rest as [|ch rest IH]; intros st; simpl; [discriminate|].
  destruct (ISSPACE ch); simpl.
  - apply IH.
  - intros _. apply tokens_inside_nonempty.
Qed.

Lemma tokens_all_whitespace (rest : list byte) :
  forall st, forallb ISSPACE rest = true -> tokens rest st None = [].
Proof.
  induction rest as [|ch rest IH]; intros st; simpl; [reflexivity|].
  destruct (ISSPACE ch); simpl; [apply IH | discriminate].
Qed.

(** *** The quote flags exclude each other *)

Lemma scan_byte_exclusive (st : flags) (arg : string) (ch : byte) :
  exclusive (st, arg) = true -> exclusive (scan_byte st arg ch) = true.
Proof.
  destruct st as [sq dq bs]. unfold exclusive, scan_byte; simpl.
  destruct bs, sq, dq, (Byte.eqb ch "\"), (Byte.eqb ch "'"),
    (Byte.eqb ch "034"); simpl; intros H; try discriminate H; reflexivity.
Qed.

Lemma snapshots_exclusive (rest : list byte) :
  forall st cur,
    exclusive (st, EmptyString) = true ->
    Forall (fun s => exclusive s = true) (snapshots rest st cur).
Proof.
  induction rest as [|ch rest IH]; intros st cur Hst; simpl; [constructor|].
  assert (Hstep : forall arg, exclusive (scan_byte st arg ch) = true)
    by (intros arg; now apply scan_byte_exclusive).
  assert (Hnext : forall arg,
             exclusive (fst (scan_byte st arg ch), EmptyString) = true)
    by (intros arg; exact (Hstep arg)).
  destruct cur as [arg|].
  - destruct (ends_argument st ch); [now apply IH|].
    constructor; [apply Hstep | apply IH, Hnext].
  - destruct (ISSPACE ch); [now apply IH|].
    constructor; [apply Hstep | apply IH, Hnext].
Qed.

(** A quote flag goes from unset to set only when no flag at all is set. *)
Lemma scan_byte_enters_quote (st : flags) (arg : string) (ch : byte) :
  (squote st = false /\ squote (fst (scan_byte st arg ch)) = true)
  \/ (dquote st = false /\ dquote (fst (scan_byte st arg ch)) = true) ->
  st = no_flags.
Proof.
  destruct st as [sq dq bs]. unfold scan_byte, no_flags; simpl.
  destruct bs, sq, dq, (Byte.eqb ch "\"), (Byte.eqb ch "'"),
    (Byte.eqb ch "034"); simpl; intros [[H1 H2]|[H1 H2]];
    try discriminate; reflexivity.
Qed.

(** *** The end of the buffer inside an argument *)

Lemma last_cons_default {A} (l : list A) (x d : A) :
  last (x :: l) d = last l x.
Proof.
  revert x d; induction l as [|y l IH]; intros x d; [reflexivity|].
  change (last (x :: y :: l) d) with (last (y :: l) d).
  rewrite IH. symmetry. apply IH.
Qed.

Lemma ends_argument_unflagged (st : flags) (ch : byte) :
  ends_argument st ch = true -> flagged st = false.
Proof.
  destruct st as [sq dq bs]. unfold ends_argument, flagged; simpl.
  destruct (ISSPACE ch), sq, dq, bs; simpl; intros H; try discriminate H;
    reflexivity.
Qed.

(** If the last snapshot of a scan has a flag set, the last argument the
    scan returns is the argument of that snapshot. *)
Lemma tokens_emit_final (rest : list byte) :
  forall st cur,
    (cur = None -> flagged st = false) ->
    let start := (st, match cur with Some arg => arg | None => EmptyString end) in
    let fin := last (snapshots rest st cur) start in
    flagged (fst fin) = true ->
    exists front, tokens rest st cur = front ++ [snd fin].
Proof.
  induction rest as [|ch rest IH]; intros st cur Hcur; cbn zeta.
  - simpl. destruct cur as [arg|]; intros Hfin.
    + exists []; reflexivity.
    + rewrite Hcur in Hfin by reflexivity. discriminate Hfin.
  - assert (Hstep : forall arg,
      flagged (fst (last (scan_byte st arg ch
                          :: snapshots rest (fst (scan_byte st arg ch))
                               (Some (snd (scan_byte st arg ch))))
                      (st, arg))) = true ->
      exists front,
        tokens rest (fst (scan_byte st arg ch))
          (Some (snd (scan_byte st arg ch)))
        = front ++ [snd (last (scan_byte st arg ch
                               :: snapshots rest (fst (scan_byte st arg ch))
                                    (Some (snd (scan_byte st arg ch))))
                           (st, arg))]).
    { intros arg. rewrite last_cons_default.
      destruct (scan_byte st arg ch) as [st1 arg1]. simpl fst; simpl snd.
      apply (IH st1 (Some arg1)). discriminate. }
    assert (Hskip : forall arg,
      flagged st = false ->
      flagged (fst (last (snapshots rest st None) (st, arg))) = true ->
      exists front,
        tokens rest st None
        = front ++ [snd (last (snapshots rest st None) (st, arg))]).
    { intros arg Hst Hfin.
      pose proof (IH st None (fun _ => Hst)) as IHn. cbn zeta in IHn.
      destruct (snapshots rest st None) as [|x l] eqn:E.
      - simpl in Hfin. rewrite Hst in Hfin. discriminate Hfin.
      - rewrite last_cons_default in *. now apply IHn. }
    simpl. destruct cur as [arg|].
    + destruct (ends_argument st ch) eqn:Eend.
      * intros Hfin.
        destruct (Hskip arg (ends_argument_unflagged _ _ Eend) Hfin)
          as [front Hfront].
        exists (arg :: front). simpl. now rewrite Hfront.
      * apply Hstep.
    + destruct (ISSPACE ch).
      * apply Hskip. now apply Hcur.
      * apply Hstep.
Qed.

Lemma buildargv_emit_final (data : list byte) :
  unterminated (buildargv_hist data) = true ->
  exists front, buildargv data = front ++ [final_arg (buildargv_hist data)].
Proof.
  rewrite buildargv_cursor, buildargv_hist_cursor.
  unfold unterminated, final_arg, final_flags.
  apply (tokens_emit_final data no_flags None). reflexivity.
Qed.

(** *** Quoted text *)

Lemma tokens_in_squote (body rest : list byte) :
  forall arg,
    forallb (fun ch => negb (Byte.eqb ch "'" || Byte.eqb ch "\")) body = true ->
    tokens (body ++ rest) (mkFlags true false false) (Some arg)
    = tokens rest (mkFlags true false false)
        (Some (arg ++ accumulate body)%string).
Proof.
  induction body as [|ch body IH]; intros arg H; simpl.
  - now rewrite string_app_nil_r.
  - simpl in H. apply andb_true_iff in H as [Hch Hbody].
    apply negb_true_iff, orb_false_iff in Hch as [Hq Hb].
    unfold ends_argument, scan_byte; simpl.
    rewrite andb_false_r, Hq, Hb. simpl.
    rewrite IH by exact Hbody. now rewrite string_app_assoc.
Qed.

Lemma tokens_in_dquote (body rest : list byte) :
  forall arg,
    forallb (fun ch => negb (Byte.eqb ch "034" || Byte.eqb ch "\")) body = true ->
    tokens (body ++ rest) (mkFlags false true false) (Some arg)
    = tokens rest (mkFlags false true false)
        (Some (arg ++ accumulate body)%string).
Proof.
  induction body as [|ch body IH]; intros arg H; simpl.
  - now rewrite string_app_nil_r.
  - simpl in H. apply andb_true_iff in H as [Hch Hbody].
    apply negb_true_iff, orb_false_iff in Hch as [Hq Hb].
    unfold ends_argument, scan_byte; simpl.
    rewrite andb_false_r, Hq, Hb. simpl.
    rewrite IH by exact Hbody. now rewrite string_app_assoc.
Qed.

(** *** The escape state *)

(** What holds of the backslash state whatever the bytes are: a backslash
    met outside the escape state sets the state and adds nothing; in the
    escape state the next byte never ends the argument, is converted with
    [string(ch)] and appended, leaves the quote flags as they are, and
    clears the state. *)
Lemma escape_one_shot (st : flags) (arg : string) :
  (bsquote st = false ->
   ends_argument st "\" = false
   /\ scan_byte st arg "\" = (mkFlags (squote st) (dquote st) true, arg))
  /\ (bsquote st = true ->
      forall ch,
        ends_argument st ch = false
        /\ scan_byte st arg ch
           = (mkFlags (squote st) (dquote st) false,
              (arg ++ string_of_byte ch)%string)).
Proof.
  destruct st as [sq dq bs]; simpl. split; intros ->.
  - split; [|reflexivity].
    unfold ends_argument; simpl. reflexivity.
  - intros ch. split; [|reflexivity].
    unfold ends_argument; simpl. now rewrite andb_false_r.
Qed.

(** An escaped ASCII byte is appended as it is. *)
Lemma escaped_ascii_literal (st : flags) (arg : string) (ch : byte) :
  bsquote st = true -> is_ascii ch = true ->
  snd (scan_byte st arg ch)
  = (arg ++ String (ascii_of_byte ch) EmptyString)%string.
Proof.
  intros Hbs Hascii. unfold scan_byte. rewrite Hbs. simpl.
  unfold string_of_byte. unfold is_ascii in Hascii. now rewrite Hascii.
Qed.

Example buildargv_escaped_space :
  buildargv (list_byte_of_string "a\ b") = ["a b"%string].
Proof. reflexivity. Qed.

End TokenizerFacts.

(** ** The argument expander *)

Module ExpanderFacts.
Import Tokenizer TokenizerFacts GoStrings Expander.

Lemma fold_left_append {A} (rows args : list A) :
  fold_left (fun args row => args ++ [row]) rows args = args ++ rows.
Proof.
  revert args; induction rows as [|row rows IH]; intros args; simpl.
  - now rewrite app_nil_r.
  - rewrite IH. now rewrite <- app_assoc.
Qed.

Lemma HasPrefix_at (arg : string) :
  strings_HasPrefix arg "@" = true ->
  exists name, arg = String "@" name /\ string_from 1 arg = name.
Proof.
  unfold strings_HasPrefix.
  destruct arg as [|c name]; cbn [String.prefix]; [discriminate|].
  destruct (ascii_dec "@" c) as [<-|]; [|discriminate].
  intros _. now exists name.
Qed.

Section Loop.

Variable File : Type.
Variable error : Type.
Variable os_Open : string -> option File * option error.
Variable is_not_exist : error -> bool.
Variable ioutil_ReadAll : option File -> list byte * option error.
Variable File_Close : option File -> option error.

Local Abbreviation expand := (expand File error os_Open is_not_exist ioutil_ReadAll File_Close).
Local Abbreviation expansion := (expansion File error os_Open is_not_exist ioutil_ReadAll).
Local Abbreviation diagnostic := (diagnostic File error os_Open is_not_exist).
Local Abbreviation missing := (missing File error os_Open is_not_exist).
Local Abbreviation resolves := (resolves File error os_Open ioutil_ReadAll File_Close).
Local Abbreviation os_IsNotExist := (os_IsNotExist error is_not_exist).

(** An argument that does not begin with [@] is copied. *)
Lemma expand_plain_argument (arg : string) os_Args args log :
  strings_HasPrefix arg "@" = false ->
  expand (arg :: os_Args) args log = expand os_Args (args ++ [arg]) log.
Proof. intros H. simpl. now rewrite H. Qed.

(** A reference to a file that does not exist is logged and copied, and
    the loop goes on. *)
Lemma expand_missing_file (arg : string) os_Args args log :
  strings_HasPrefix arg "@" = true ->
  missing arg ->
  expand (arg :: os_Args) args log
  = expand os_Args (args ++ [arg])
      (log ++ [mkMessage ("Unable to open response file (%s): %#v" ++ newline)
                 (string_from 1 arg) (snd (os_Open (string_from 1 arg)))]).
Proof.
  intros Hat Hmiss. unfold Expander.missing in Hmiss.
  destruct (HasPrefix_at arg Hat) as (name & -> & Hname).
  cbn [Expander.expand]. rewrite Hat. simpl negb. simpl orb.
  rewrite Hname in *.
  destruct (os_Open name) as [file err]. simpl in Hmiss. now rewrite Hmiss.
Qed.

(** A failed read stops the process with the file name and the read
    error. *)
Lemma expand_read_failure (arg : string) os_Args args log contents e :
  strings_HasPrefix arg "@" = true ->
  os_IsNotExist (snd (os_Open (string_from 1 arg))) = false ->
  ioutil_ReadAll (fst (os_Open (string_from 1 arg))) = (contents, Some e) ->
  expand (arg :: os_Args) args log
  = Fatal log
      (mkMessage "Unable to read contents of response file (%s): %#v"
         (string_from 1 arg) (Some e)).
Proof.
  intros Hat Hexist Hread.
  destruct (HasPrefix_at arg Hat) as (name & -> & Hname).
  cbn [Expander.expand]. rewrite Hat. simpl negb. simpl orb.
  rewrite Hname in *.
  destruct (os_Open name) as [file err]. simpl in Hexist, Hread.
  now rewrite Hexist, Hread.
Qed.

(** A failed close stops the process with the file name and the close
    error. *)
Lemma expand_close_failure (arg : string) os_Args args log contents e :
  strings_HasPrefix arg "@" = true ->
  os_IsNotExist (snd (os_Open (string_from 1 arg))) = false ->
  ioutil_ReadAll (fst (os_Open (string_from 1 arg))) = (contents, None) ->
  File_Close (fst (os_Open (string_from 1 arg))) = Some e ->
  expand (arg :: os_Args) args log
  = Fatal log
      (mkMessage "Unable to close response file (%s): %#v"
         (string_from 1 arg) (Some e)).
Proof.
  intros Hat Hexist Hread Hclose.
  destruct (HasPrefix_at arg Hat) as (name & -> & Hname).
  cbn [Expander.expand]. rewrite Hat. simpl negb. simpl orb.
  rewrite Hname in *.
  destruct (os_Open name) as [file err]. simpl in Hexist, Hread, Hclose.
  now rewrite Hexist, Hread, Hclose.
Qed.

(** A file that is read and closed without error is replaced by its
    arguments. *)
Lemma expand_response_file (arg : string) os_Args args log contents :
  strings_HasPrefix arg "@" = true ->
  os_IsNotExist (snd (os_Open (string_from 1 arg))) = false ->
  ioutil_ReadAll (fst (os_Open (string_from 1 arg))) = (contents, None) ->
  File_Close (fst (os_Open (string_from 1 arg))) = None ->
  expand (arg :: os_Args) args log
  = expand os_Args (args ++ buildargv contents) log.
Proof.
  intros Hat Hexist Hread Hclose.
  destruct (HasPrefix_at arg Hat) as (name & -> & Hname).
  cbn [Expander.expand]. rewrite Hat. simpl negb. simpl orb.
  rewrite Hname in *.
  destruct (os_Open name) as [file err]. simpl in Hexist, Hread, Hclose.
  now rewrite Hexist, Hread, Hclose, fold_left_append.
Qed.

(** When every referenced file is absent or is read and closed without
    error, the loop runs to its end and returns the expansions of the
    arguments, in the order of the arguments. *)
Lemma expand_in_order (os_Args : list string) :
  forall args log,
    (forall arg, In arg os_Args -> strings_HasPrefix arg "@" = true ->
                 missing arg \/ resolves arg) ->
    expand os_Args args log
    = Returned (args ++ flat_map expansion os_Args)
        (log ++ flat_map diagnostic os_Args).
Proof.
  induction os_Args as [|arg os_Args IH]; intros args log Hall.
  - simpl. now rewrite !app_nil_r.
  - assert (Hrest : forall a, In a os_Args -> strings_HasPrefix a "@" = true ->
                              missing a \/ resolves a)
      by (intros a Ha; apply Hall; now right).
    cbn [flat_map]. unfold Expander.expansion at 1, Expander.diagnostic at 1.
    destruct (strings_HasPrefix arg "@") eqn:Hat.
    + destruct (os_IsNotExist (snd (os_Open (string_from 1 arg)))) eqn:Hexist.
      * rewrite expand_missing_file by assumption.
        rewrite IH by exact Hrest. now rewrite <- !app_assoc.
      * destruct (Hall arg (or_introl eq_refl) Hat) as [Hmiss|Hres].
        { unfold Expander.missing in Hmiss. congruence. }
        destruct Hres as (file & Hopen & Hread & Hclose).
        rewrite Hopen in *. cbn [fst snd] in *.
        destruct (ioutil_ReadAll (Some file)) as [contents rerr] eqn:Eread.
        cbn [fst snd] in *. subst rerr.
        rewrite (expand_response_file arg os_Args args log contents);
          try assumption; rewrite ?Hopen; cbn [fst snd]; try assumption.
        rewrite IH by exact Hrest. now rewrite <- !app_assoc.
    + rewrite expand_plain_argument by exact Hat.
      rewrite IH by exact Hrest. now rewrite <- !app_assoc.
Qed.

End Loop.

(** The error of a failed [os.Open] reaches the outcome only when it is a
    does-not-exist error: two systems whose [os.Open] return the same
    files, agree on which errors are does-not-exist errors and return the
    same such errors, give the same outcome, whatever other errors their
    [os.Open] return. *)
Lemma expand_ignores_open_error (File error : Type)
    (open1 open2 : string -> option File * option error)
    (is_not_exist : error -> bool)
    (ioutil_ReadAll : option File -> list byte * option error)
    (File_Close : option File -> option error) :
  (forall path,
      fst (open1 path) = fst (open2 path)
      /\ os_IsNotExist error is_not_exist (snd (open1 path))
         = os_IsNotExist error is_not_exist (snd (open2 path))
      /\ (os_IsNotExist error is_not_exist (snd (open1 path)) = true ->
          snd (open1 path) = snd (open2 path))) ->
  forall os_Args args log,
    expand File error open1 is_not_exist ioutil_ReadAll File_Close
      os_Args args log
    = expand File error open2 is_not_exist ioutil_ReadAll File_Close
        os_Args args log.
Proof.
  intros Hsame os_Args.
  induction os_Args as [|arg os_Args IH]; intros args log; [reflexivity|].
  cbn [Expander.expand].
  destruct (negb (strings_HasPrefix arg "@") || (String.length arg <? 1));
    [apply IH|].
  destruct (Hsame (string_from 1 arg)) as (Hfile & Hexist & Herr).
  destruct (open1 (string_from 1 arg)) as [file1 err1],
           (open2 (string_from 1 arg)) as [file2 err2].
  cbn [fst snd] in *. subst file2. rewrite <- Hexist.
  destruct (os_IsNotExist error is_not_exist err1).
  - rewrite <- (Herr eq_refl). apply IH.
  - destruct (ioutil_ReadAll file1) as [contents [e|]]; [reflexivity|].
    destruct (File_Close file1); [reflexivity | apply IH].
Qed.

End ExpanderFacts.

Import Tokenizer TokenizerFacts.

(** *** Statements of the specification about the tokenizer *)

(** C1.  The specification says that a buffer without quotes and
    backslashes is split into its maximal runs of non-whitespace bytes.
    [buildargv] appends each byte with [arg += string(data[di])], which
    re-encodes a byte above 0x7F as two bytes: on the buffer C3 A9 (the
    UTF-8 encoding of e-acute), a single run, it returns one argument of
    the four bytes C3 83 C2 A9, not the run.  (On ASCII buffers the
    statement holds: lemma [buildargv_plain_ascii].) *)
Theorem buildargv_word_with_high_bytes :
  let data := ["195"; "169"]%byte in
  forallb plain data = true
  /\ fields data = [data]
  /\ buildargv data
     = [String "195" (String "131" (String "194" (String "169" EmptyString)))]
  /\ buildargv data <> map string_of_bytes (fields data).
Proof.
  cbv zeta. repeat split; try reflexivity.
  vm_compute. discriminate.
Qed.

(** C4.  The specification says that the byte after an unescaped backslash,
    whatever it is, is appended literally.  The escape state itself works
    as stated (lemma [escape_one_shot]), and an escaped ASCII byte is
    appended as it is (lemma [escaped_ascii_literal], example
    [buildargv_escaped_space]); but the escaped byte goes through
    [string(data[di])] as well, so on the buffer 5C E9 [buildargv] returns
    the two bytes C3 A9 and not the byte E9. *)
Theorem buildargv_escaped_high_byte :
  let data := ["\"; "233"]%byte in
  buildargv data = [String "195" (String "169" EmptyString)]
  /\ buildargv data <> [string_of_bytes ["233"%byte]]
  /\ buildargv (list_byte_of_string "a\ b") = ["a b"%string].
Proof.
  cbv zeta. repeat split; try reflexivity.
  vm_compute. discriminate.
Qed.

(** C5.  An unescaped single quote met outside double-quote mode toggles
    single-quote mode and adds nothing to the argument, and likewise a
    double quote outside single-quote mode; while a quote mode is active a
    whitespace byte does not end the argument and is appended as it is.
    Hence a quoted text without the quote character and without backslash
    is one argument, whitespace included; the buffer [a 'b c' d] yields
    the arguments [a], [b c] and [d]. *)
Theorem buildargv_quote_modes :
  (forall st arg,
      bsquote st = false -> dquote st = false ->
      ends_argument st "'" = false
      /\ scan_byte st arg "'" = (mkFlags (negb (squote st)) false false, arg))
  /\ (forall st arg,
      bsquote st = false -> squote st = false ->
      ends_argument st "034" = false
      /\ scan_byte st arg "034" = (mkFlags false (negb (dquote st)) false, arg))
  /\ (forall st arg ch,
      ISSPACE ch = true -> squote st = true \/ dquote st = true ->
      ends_argument st ch = false
      /\ scan_byte st arg ch
         = (mkFlags (squote st) (dquote st) false,
            (arg ++ String (ascii_of_byte ch) EmptyString)%string))
  /\ (forall body,
      forallb (fun ch => negb (Byte.eqb ch "'" || Byte.eqb ch "\")) body = true ->
      buildargv ("'"%byte :: body ++ ["'"%byte]) = [accumulate body])
  /\ (forall body,
      forallb (fun ch => negb (Byte.eqb ch "034" || Byte.eqb ch "\")) body = true ->
      buildargv ("034"%byte :: body ++ ["034"%byte]) = [accumulate body])
  /\ buildargv (list_byte_of_string "a 'b c' d")
     = ["a"%string; "b c"%string; "d"%string].
Proof.
  repeat apply conj.
  - intros [sq dq bs] arg; simpl; intros -> ->. now destruct sq.
  - intros [sq dq bs] arg; simpl; intros -> ->. now destruct dq.
  - intros [sq dq bs] arg ch Hsp Hq; simpl in *.
    destruct (ISSPACE_not_special ch Hsp) as (Hs & Hd & Hb).
    unfold ends_argument, scan_byte; simpl.
    rewrite Hs, Hd, Hb, (string_of_byte_space ch Hsp), Hsp.
    destruct sq, dq, bs; destruct Hq as [Hq|Hq]; try discriminate Hq;
      split; reflexivity.
  - intros body H. rewrite buildargv_cursor. simpl.
    rewrite tokens_in_squote by exact H. reflexivity.
  - intros body H. rewrite buildargv_cursor. simpl.
    rewrite tokens_in_dquote by exact H. reflexivity.
  - reflexivity.
Qed.

Lemma buildargv_quote_modes_witness :
  scan_byte (mkFlags true false false) "b"%string "'"
  = (mkFlags false false false, "b"%string)
  /\ scan_byte (mkFlags false false false) "b"%string "034"
     = (mkFlags false true false, "b"%string)
  /\ scan_byte (mkFlags true false false) "b"%string " "
     = (mkFlags true false false, "b "%string)
  /\ buildargv (list_byte_of_string "'b c'") = ["b c"%string]
  /\ buildargv ("034"%byte :: list_byte_of_string "b c" ++ ["034"%byte])
     = ["b c"%string].
Proof.
  destruct buildargv_quote_modes as (Hs & Hd & Hw & Hsq & Hdq & _).
  repeat apply conj.
  - apply (Hs (mkFlags true false false) "b"%string); reflexivity.
  - apply (Hd (mkFlags false false false) "b"%string); reflexivity.
  - apply (Hw (mkFlags true false false) "b"%string " "%byte);
      [reflexivity | left; reflexivity].
  - apply (Hsq (list_byte_of_string "b c")); reflexivity.
  - apply (Hdq (list_byte_of_string "b c")); reflexivity.
Defined.

(** C8.  [buildargv] has no failure mode: on every buffer the scan returns
    a result, and when it reaches the end of the buffer inside a single or
    double quote, or right after an unconsumed backslash, the argument
    accumulated at that point is the last argument of the result. *)
Theorem buildargv_tolerates_unterminated :
  (forall data,
      buildargv_run data = Some (buildargv data, buildargv_hist data))
  /\ (forall data,
      unterminated (buildargv_hist data) = true ->
      exists front,
        buildargv data = front ++ [final_arg (buildargv_hist data)])
  /\ buildargv (list_byte_of_string "abc 'de f")
     = ["abc"%string; "de f"%string]
  /\ buildargv (list_byte_of_string "x " ++ ["034"%byte]
                ++ list_byte_of_string "y z")
     = ["x"%string; "y z"%string]
  /\ buildargv (list_byte_of_string "abc\") = ["abc"%string]
  /\ buildargv (list_byte_of_string "abc \") = ["abc"%string; EmptyString].
Proof.
  repeat apply conj; try reflexivity.
  - apply buildargv_run_eq.
  - apply buildargv_emit_final.
Qed.

Lemma buildargv_tolerates_unterminated_witness :
  unterminated (buildargv_hist (list_byte_of_string "abc 'de f")) = true
  /\ final_arg (buildargv_hist (list_byte_of_string "abc 'de f"))
     = "de f"%string
  /\ exists front,
      buildargv (list_byte_of_string "abc 'de f")
      = front ++ [final_arg (buildargv_hist (list_byte_of_string "abc 'de f"))].
Proof.
  repeat apply conj; try reflexivity.
  apply (proj1 (proj2 buildargv_tolerates_unterminated)
           (list_byte_of_string "abc 'de f")).
  reflexivity.
Defined.

(** C9.  At every step of every scan at most one of the flags [squote] and
    [dquote] is set: it holds initially and in every snapshot of the
    history of the scan, because a quote flag goes from unset to set only
    in a state where neither quote flag is set. *)
Theorem buildargv_quote_flags_exclusive :
  (forall data,
      buildargv_run data = Some (buildargv data, buildargv_hist data)
      /\ Forall (fun s : snapshot => squote (fst s) && dquote (fst s) = false)
           ((no_flags, EmptyString) :: buildargv_hist data))
  /\ (forall st arg ch,
      (squote st = false /\ squote (fst (scan_byte st arg ch)) = true)
      \/ (dquote st = false /\ dquote (fst (scan_byte st arg ch)) = true) ->
      squote st = false /\ dquote st = false).
Proof.
  split.
  - intros data. split; [apply buildargv_run_eq|].
    constructor; [reflexivity|].
    rewrite buildargv_hist_cursor.
    eapply Forall_impl; [|apply snapshots_exclusive; reflexivity].
    intros s Hs. unfold exclusive in Hs. now apply negb_true_iff in Hs.
  - intros st arg ch H.
    rewrite (scan_byte_enters_quote st arg ch H). split; reflexivity.
Qed.

Lemma buildargv_quote_flags_exclusive_witness :
  squote (fst (scan_byte no_flags EmptyString "'")) = true
  /\ squote no_flags = false /\ dquote no_flags = false.
Proof.
  split; [reflexivity|].
  apply (proj2 buildargv_quote_flags_exclusive no_flags EmptyString "'"%byte).
  left. split; reflexivity.
Defined.

(** C10.  A buffer with at least one byte that is not whitespace yields at
    least one argument, and an argument can be the empty string: two single
    quotes yield one empty argument, and so does a lone backslash; the
    empty buffer and a buffer of whitespace yield no argument. *)
Theorem buildargv_nonblank_yields_argument :
  (forall data,
      existsb (fun ch => negb (ISSPACE ch)) data = true ->
      exists arg more, buildargv data = arg :: more)
  /\ buildargv ["'"; "'"]%byte = [EmptyString]
  /\ buildargv ["\"]%byte = [EmptyString]
  /\ buildargv [] = []
  /\ (forall data, forallb ISSPACE data = true -> buildargv data = []).
Proof.
  repeat apply conj; try reflexivity.
  - intros data H. rewrite buildargv_cursor.
    pose proof (tokens_nonempty data no_flags H) as Hne.
    destruct (tokens data no_flags None) as [|arg more]; [congruence|].
    now exists arg, more.
  - intros data H. rewrite buildargv_cursor. now apply tokens_all_whitespace.
Qed.

Lemma buildargv_nonblank_yields_argument_witness :
  (exists arg more, buildargv (list_byte_of_string " \ ") = arg :: more)
  /\ buildargv (list_byte_of_string "  ") = [].
Proof.
  destruct buildargv_nonblank_yields_argument as (Hne & _ & _ & _ & Hws).
  split.
  - apply (Hne (list_byte_of_string " \ ")). reflexivity.
  - apply (Hws (list_byte_of_string "  ")). reflexivity.
Defined.

Import GoStrings Expander ExpanderFacts.

(** *** Statements of the specification about the expander *)

(** What the loop does with a reference to a file that does not exist, and
    with a file whose read or close fails, in the sample file system. *)
Example Flagparse_missing_file_example :
  SampleOS.Flagparse_in [] ["prog"; "@missingfile"; "-v"]%string
  = Returned ["prog"; "@missingfile"; "-v"]%string
      [mkMessage ("Unable to open response file (%s): %#v" ++ newline)
         "missingfile" (Some SampleOS.ENOENT)].
Proof. reflexivity. Qed.

Example Flagparse_read_failure_example :
  SampleOS.Flagparse_in [("bad"%string, SampleOS.ReadFails [])]
    ["prog"; "@bad"; "-v"]%string
  = Fatal []
      (mkMessage "Unable to read contents of response file (%s): %#v"
         "bad" (Some SampleOS.EIO)).
Proof. reflexivity. Qed.

Example Flagparse_close_failure_example :
  SampleOS.Flagparse_in [("bad"%string, SampleOS.CloseFails [])]
    ["prog"; "@bad"; "-v"]%string
  = Fatal []
      (mkMessage "Unable to close response file (%s): %#v"
         "bad" (Some SampleOS.EIO)).
Proof. reflexivity. Qed.

(** C2.  The specification says that a response file that cannot be opened
    for a reason other than its absence stops the process with a message
    that names the file and the underlying error.  The loop tests the
    error of [os.Open] with [os.IsNotExist] only; any other open error is
    dropped and the nil file is handed to [ioutil.ReadAll].  With a file
    that exists but may not be opened (permission denied), the process
    stops with the read message and the error of reading the nil file, not
    the error of the open.  (The other parts of the statement hold: lemmas
    [expand_missing_file], [expand_read_failure], [expand_close_failure];
    that no open error other than does-not-exist can reach the outcome is
    lemma [expand_ignores_open_error].) *)
Theorem Flagparse_open_error_not_reported :
  let fs := [("secret"%string, SampleOS.Denied)] in
  SampleOS.os_Open fs "secret" = (None, Some SampleOS.EACCES)
  /\ SampleOS.Flagparse_in fs ["prog"; "@secret"]%string
     = Fatal []
         (mkMessage "Unable to read contents of response file (%s): %#v"
            "secret" (Some SampleOS.EINVAL)).
Proof. split; reflexivity. Qed.

(** C3.  The expansion keeps the order of the arguments.  When every
    referenced file is absent or is opened, read and closed without error,
    [Flagparse] returns the concatenation, in argument order, of: the
    argument itself when it does not begin with [@] (or names an absent
    file), and the [buildargv] tokens of the whole contents of the file
    when it names a file that opens.  The tokens are added as they are, not
    scanned for [@] again.  With [resp] holding [-x -y=1], the arguments
    [prog @resp] become [prog -x -y=1]. *)
Theorem Flagparse_expands_in_order :
  (forall File error os_Open is_not_exist ioutil_ReadAll File_Close os_Args,
      (forall arg, In arg os_Args -> strings_HasPrefix arg "@" = true ->
                   missing File error os_Open is_not_exist arg
                   \/ resolves File error os_Open ioutil_ReadAll File_Close arg) ->
      Flagparse File error os_Open is_not_exist ioutil_ReadAll File_Close os_Args
      = Returned
          (flat_map (expansion File error os_Open is_not_exist ioutil_ReadAll)
             os_Args)
          (flat_map (diagnostic File error os_Open is_not_exist) os_Args))
  /\ (forall File error os_Open is_not_exist ioutil_ReadAll arg,
      strings_HasPrefix arg "@" = false ->
      expansion File error os_Open is_not_exist ioutil_ReadAll arg = [arg])
  /\ (forall File error os_Open is_not_exist ioutil_ReadAll arg file contents,
      strings_HasPrefix arg "@" = true ->
      os_Open (string_from 1 arg) = (Some file, None) ->
      ioutil_ReadAll (Some file) = (contents, None) ->
      expansion File error os_Open is_not_exist ioutil_ReadAll arg
      = buildargv contents)
  /\ SampleOS.Flagparse_in
       [("resp"%string, SampleOS.Regular (list_byte_of_string "-x -y=1"))]
       ["prog"; "@resp"]%string
     = Returned ["prog"; "-x"; "-y=1"]%string []
  /\ SampleOS.Flagparse_in
       [("resp"%string, SampleOS.Regular (list_byte_of_string "@inner -x"));
        ("inner"%string, SampleOS.Regular (list_byte_of_string "zzz"))]
       ["prog"; "@resp"]%string
     = Returned ["prog"; "@inner"; "-x"]%string [].
Proof.
  repeat apply conj; try reflexivity.
  - intros. unfold Flagparse. now rewrite expand_in_order.
  - intros until arg. intros H. unfold expansion. now rewrite H.
  - intros until contents. intros Hat Hopen Hread.
    unfold expansion. rewrite Hat, Hopen. cbn [fst snd os_IsNotExist].
    now rewrite Hread.
Qed.

Lemma Flagparse_expands_in_order_witness :
  SampleOS.Flagparse_in
    [("resp"%string, SampleOS.Regular (list_byte_of_string "-x  'a b'"))]
    ["prog"; "@resp"; "@nofile"; "-z"]%string
  = Returned ["prog"; "-x"; "a b"; "@nofile"; "-z"]%string
      [mkMessage ("Unable to open response file (%s): %#v" ++ newline)
         "nofile" (Some SampleOS.ENOENT)].
Proof.
  unfold SampleOS.Flagparse_in.
  rewrite (proj1 Flagparse_expands_in_order); [reflexivity|].
  intros arg Hin Hat.
  destruct Hin as [<-|[<-|[<-|[<-|[]]]]]; try discriminate Hat.
  - right. eexists. repeat split; reflexivity.
  - left. reflexivity.
Defined.
Import Count.

(** *** Statements of the specification about the counting flag *)

Lemma int_wrap_in_range (z : Z) :
  (int_min <= z <= int_max)%Z -> int_wrap z = z.
Proof.
  unfold int_min, int_max, int_wrap. intros H.
  rewrite Z.mod_small; lia.
Qed.

Lemma int_wrap_overflow : int_wrap (int_max + 1) = int_min.
Proof. reflexivity. Qed.

Lemma string_eqb_neq (s t : string) : s <> t -> String.eqb s t = false.
Proof. intros H. now apply String.eqb_neq. Qed.

(** C6.  [Set] with the argument [true] increments the stored count by one
    (the Go increment of an [int]: the successor for every count below the
    largest [int], where it wraps around); with [false] it stores zero;
    any other argument is handed to [strconv.Atoi], whose result is stored
    when it succeeds; when it fails [Set] returns the error made from the
    format [invalid count %q] and the argument, and the stored count stays
    as it was.  From 0, three calls with [true] give 3, a call with [false]
    gives 0, a call with [7] gives 7, and a call with [abc] returns the
    error and leaves 7. *)
Theorem count_Set_behaviour (strconv_Atoi : string -> option Z) :
  (forall c, count_Set strconv_Atoi "true" c = (int_wrap (c + 1), None))
  /\ (forall c, (int_min <= c < int_max)%Z ->
                count_Set strconv_Atoi "true" c = ((c + 1)%Z, None))
  /\ (forall c, count_Set strconv_Atoi "false" c = (0%Z, None))
  /\ (forall s c n,
         s <> "true"%string -> s <> "false"%string ->
         strconv_Atoi s = Some n ->
         count_Set strconv_Atoi s c = (n, None))
  /\ (forall s c,
         s <> "true"%string -> s <> "false"%string ->
         strconv_Atoi s = None ->
         count_Set strconv_Atoi s c
         = (c, Some (Errorf "invalid count %q" s)))
  /\ (strconv_Atoi "7" = Some 7%Z -> strconv_Atoi "abc" = None ->
      count_after strconv_Atoi ["true"; "true"; "true"]%string 0 = 3%Z
      /\ count_after strconv_Atoi
           ["true"; "true"; "true"; "false"]%string 0 = 0%Z
      /\ count_after strconv_Atoi
           ["true"; "true"; "true"; "false"; "7"]%string 0 = 7%Z
      /\ count_Set strconv_Atoi "abc" 7
         = (7%Z, Some (Errorf "invalid count %q" "abc"))).
Proof.
  repeat apply conj.
  - reflexivity.
  - intros c Hc. unfold count_Set. simpl.
    rewrite int_wrap_in_range; [reflexivity | lia].
  - reflexivity.
  - intros s c n Ht Hf Hn. unfold count_Set.
    now rewrite (string_eqb_neq _ _ Ht), (string_eqb_neq _ _ Hf), Hn.
  - intros s c Ht Hf Hn. unfold count_Set.
    now rewrite (string_eqb_neq _ _ Ht), (string_eqb_neq _ _ Hf), Hn.
  - intros H7 Habc. unfold count_after, count_Set. simpl.
    rewrite H7, Habc. repeat split; reflexivity.
Qed.

Lemma count_Set_behaviour_witness :
  count_Set decimal_Atoi "true" 41 = (42%Z, None)
  /\ count_Set decimal_Atoi "-12" 41 = ((-12)%Z, None)
  /\ count_Set decimal_Atoi "1x" 41 = (41%Z, Some (Errorf "invalid count %q" "1x"))
  /\ count_after decimal_Atoi
       ["true"; "true"; "true"; "false"; "7"]%string 0 = 7%Z
  /\ count_Set decimal_Atoi "abc" 7
     = (7%Z, Some (Errorf "invalid count %q" "abc")).
Proof.
  destruct (count_Set_behaviour decimal_Atoi)
    as (_ & Hinc & _ & Hok & Herr & Hseq).
  repeat apply conj.
  - apply (Hinc 41%Z). unfold int_min, int_max. lia.
  - apply (Hok "-12"%string 41%Z (-12)%Z);
      [discriminate | discriminate | reflexivity].
  - apply (Herr "1x"%string 41%Z); [discriminate | discriminate | reflexivity].
  - apply (Hseq eq_refl eq_refl).
  - apply (Hseq eq_refl eq_refl).
Defined.

(** ** The version flag *)

Module VersionFacts.
Import GoStrings Version TokenizerFacts.

Lemma string_from_app (pre rest : string) :
  string_from (String.length pre) (pre ++ rest) = rest.
Proof. induction pre as [|c pre IH]; simpl; [reflexivity | exact IH]. Qed.

Lemma string_length_app (s t : string) :
  String.length (s ++ t) = String.length s + String.length t.
Proof. induction s as [|c s IH]; simpl; [reflexivity | now rewrite IH]. Qed.

Lemma substring_string_from (n : nat) (s : string) :
  n <= String.length s ->
  (String.substring 0 n s ++ string_from n s)%string = s.
Proof.
  revert s; induction n as [|n IH]; intros s Hn.
  - destruct s; reflexivity.
  - destruct s as [|c s]; simpl in *; [lia|].
    rewrite IH by lia. reflexivity.
Qed.

Lemma occurs_app (c : ascii) (s t : string) :
  occurs c (s ++ t) = occurs c s || occurs c t.
Proof.
  induction s as [|a s IH]; simpl; [reflexivity|].
  now rewrite IH, orb_assoc.
Qed.

Lemma prefix_char (c : ascii) (s : string) :
  String.prefix (String c EmptyString) s
  = match s with
    | String a _ => Ascii.eqb a c
    | EmptyString => false
    end.
Proof.
  destruct s as [|a s]; cbn [String.prefix]; [reflexivity|].
  destruct (ascii_dec c a) as [<-|Hne].
  - rewrite Ascii.eqb_refl. now destruct s.
  - symmetry. apply Ascii.eqb_neq. congruence.
Qed.

(** [strings.LastIndex] with a separator of one byte: -1 when the byte does
    not occur, else the index of its last occurrence. *)
Lemma LastIndex_from_char (c : ascii) (s : string) :
  forall i,
    (0 <= i)%Z ->
    (occurs c s = false
     /\ LastIndex_from i s (String c EmptyString) = (-1)%Z)
    \/ (exists pre t,
           s = (pre ++ String c t)%string
           /\ occurs c t = false
           /\ LastIndex_from i s (String c EmptyString)
              = (i + Z.of_nat (String.length pre))%Z).
Proof.
  induction s as [|a s IH]; intros i Hi.
  - left. split; reflexivity.
  - cbn [LastIndex_from]. rewrite prefix_char.
    destruct (IH (i + 1)%Z ltac:(lia)) as [[Hno Hidx]|(pre & t & Hs & Ht & Hidx)].
    + rewrite Hidx. simpl Z.leb. cbv iota.
      destruct (Ascii.eqb a c) eqn:Eac.
      * right. exists EmptyString, s. apply Ascii.eqb_eq in Eac. subst a.
        repeat split; [exact Hno | simpl; lia].
      * left. simpl. now rewrite Eac, Hno.
    + right. exists (String a pre), t. rewrite Hidx.
      replace (0 <=? i + 1 + Z.of_nat (String.length pre))%Z with true
        by (symmetry; apply Z.leb_le; lia).
      repeat split; [simpl; now rewrite Hs | exact Ht | simpl String.length; lia].
Qed.

(** [name[strings.LastIndex(name, sep)+1:]] for a separator of one byte is
    what follows the last separator, or the whole of [name] when there is
    none. *)
Lemma after_last_char (c : ascii) (s : string) :
  (occurs c s = false /\ after_last s (String c EmptyString) = s)
  \/ (exists pre,
         s = (pre ++ String c (after_last s (String c EmptyString)))%string
         /\ occurs c (after_last s (String c EmptyString)) = false).
Proof.
  unfold after_last, strings_LastIndex.
  destruct (LastIndex_from_char c s 0%Z ltac:(lia))
    as [[Hno Hidx]|(pre & t & Hs & Ht & Hidx)]; rewrite Hidx.
  - left. split; [exact Hno | reflexivity].
  - right. exists pre.
    replace (Z.to_nat (0 + Z.of_nat (String.length pre) + 1))
      with (String.length (pre ++ String c EmptyString))
      by (rewrite string_length_app; simpl; lia).
    assert (Hfrom : string_from (String.length (pre ++ String c EmptyString)) s
                    = t).
    { rewrite <- (string_from_app (pre ++ String c EmptyString) t).
      f_equal. rewrite string_app_assoc. exact Hs. }
    rewrite Hfrom. split; assumption.
Qed.

Lemma HasSuffix_true (s suffix : string) :
  strings_HasSuffix s suffix = true ->
  s = (strings_TrimSuffix s suffix ++ suffix)%string.
Proof.
  intros H. unfold strings_TrimSuffix. rewrite H.
  unfold strings_HasSuffix in H. apply andb_true_iff in H as [Hlen Heq].
  apply Nat.leb_le in Hlen. apply String.eqb_eq in Heq.
  pose proof (substring_string_from
                (String.length s - String.length suffix) s ltac:(lia)) as Hcut.
  rewrite Heq in Hcut. now symmetry.
Qed.

Lemma HasSuffix_false (s suffix stem : string) :
  strings_HasSuffix s suffix = false -> s <> (stem ++ suffix)%string.
Proof.
  intros H ->. unfold strings_HasSuffix in H.
  rewrite string_length_app in H.
  replace (String.length stem + String.length suffix - String.length suffix)
    with (String.length stem) in H by lia.
  rewrite string_from_app, String.eqb_refl, andb_true_r in H.
  apply Nat.leb_gt in H. lia.
Qed.

(** [strings.TrimSuffix] removes the suffix when there is one. *)
Lemma TrimSuffix_spec (s suffix : string) :
  s = (strings_TrimSuffix s suffix ++ suffix)%string
  \/ ((forall stem, s <> (stem ++ suffix)%string)
      /\ strings_TrimSuffix s suffix = s).
Proof.
  destruct (strings_HasSuffix s suffix) eqn:E.
  - left. now apply HasSuffix_true.
  - right. split.
    + intros stem. now apply HasSuffix_false.
    + unfold strings_TrimSuffix. now rewrite E.
Qed.

(** The directory part that [Set] strips: the program path is a directory
    part followed by the base name, the base name holds neither kind of
    slash, and the directory part is empty or ends with a slash of either
    kind. *)
Lemma strip_directories (arg0 : string) :
  let base := after_last (after_last arg0 "/") "\" in
  exists dir,
    arg0 = (dir ++ base)%string
    /\ occurs "/" base = false
    /\ occurs "\" base = false
    /\ (dir = EmptyString
        \/ exists d, dir = (d ++ "/")%string \/ dir = (d ++ "\")%string).
Proof.
  cbv zeta.
  pose proof (after_last_char "/" arg0) as H1.
  pose proof (after_last_char "\" (after_last arg0 "/")) as H2.
  set (t1 := after_last arg0 "/") in *.
  set (t2 := after_last t1 "\") in *.
  assert (Hsuffix : forall pre, t1 = (pre ++ String "\" t2)%string ->
                                occurs "/" t1 = false -> occurs "/" t2 = false).
  { intros pre E H. rewrite E, occurs_app in H.
    apply orb_false_iff in H as [_ H]. simpl in H. exact H. }
  destruct H1 as [[Hno1 H1]|(pre1 & H1 & Hno1)];
    destruct H2 as [[Hno2 H2]|(pre2 & H2 & Hno2)].
  - exists EmptyString. rewrite H2 in *. rewrite H1 in *.
    repeat split; auto.
  - exists (pre2 ++ "\")%string. rewrite <- H1 in Hno1.
    repeat split.
    + rewrite string_app_assoc. simpl. now rewrite <- H2.
    + now apply (Hsuffix pre2).
    + exact Hno2.
    + right. exists pre2. now right.
  - exists (pre1 ++ "/")%string. rewrite H2 in *.
    repeat split; auto.
    + rewrite string_app_assoc. exact H1.
    + right. exists pre1. now left.
  - exists ((pre1 ++ String "/" pre2) ++ "\")%string.
    repeat split.
    + rewrite !string_app_assoc. simpl. rewrite <- H2. exact H1.
    + now apply (Hsuffix pre2).
    + exact Hno2.
    + right. exists (pre1 ++ String "/" pre2)%string. now right.
Qed.

End VersionFacts.

Import Version VersionFacts.

(** *** Statements of the specification about the version flag *)

(** C7.  [Set] names the program by the base name of [os.Args[0]]: what
    follows the last slash of either kind, without a trailing [.exe].  The
    line it prints is the name, the word [version], the release string and
    the experiment descriptor (left out when it equals the default one);
    the build identifier is appended when the argument is [full] and the
    release string begins with [devel], and in no other case.  For the
    path [/usr/local/bin/tool.exe], a release string that begins with
    [devel] and the argument [full], the line names [tool] and ends with
    the build identifier. *)
Theorem versionFlag_Set_report
    (Version Expstring DefaultExpstring buildID : string) :
  (forall arg0,
      exists dir base,
        arg0 = (dir ++ base)%string
        /\ occurs "/" base = false
        /\ occurs "\" base = false
        /\ (dir = EmptyString
            \/ exists d, dir = (d ++ "/")%string \/ dir = (d ++ "\")%string)
        /\ (base = (program_name arg0 ++ ".exe")%string
            \/ ((forall stem, base <> (stem ++ ".exe")%string)
                /\ program_name arg0 = base)))
  /\ (forall arg0 rest s,
      let line :=
        (program_name arg0 ++ " version " ++ Version
         ++ (if String.eqb Expstring DefaultExpstring then EmptyString
             else if String.eqb Expstring EmptyString then EmptyString
             else " " ++ Expstring))%string in
      (s = "full"%string -> strings_HasPrefix Version "devel" = true ->
       versionFlag_Set Version Expstring DefaultExpstring buildID
         (arg0 :: rest) s
       = Exited (line ++ " buildID=" ++ buildID ++ newline)%string 0)
      /\ (s <> "full"%string \/ strings_HasPrefix Version "devel" = false ->
          versionFlag_Set Version Expstring DefaultExpstring buildID
            (arg0 :: rest) s
          = Exited (line ++ newline)%string 0))
  /\ (forall rest,
      strings_HasPrefix Version "devel" = true ->
      versionFlag_Set Version Expstring DefaultExpstring buildID
        ("/usr/local/bin/tool.exe"%string :: rest) "full"
      = Exited
          ("tool version " ++ Version
           ++ (if String.eqb Expstring DefaultExpstring then EmptyString
               else if String.eqb Expstring EmptyString then EmptyString
               else " " ++ Expstring)
           ++ " buildID=" ++ buildID ++ newline)%string 0).
Proof.
  assert (Hfull : forall arg0 rest,
    strings_HasPrefix Version "devel" = true ->
    versionFlag_Set Version Expstring DefaultExpstring buildID
      (arg0 :: rest) "full"
    = Exited
        ((program_name arg0 ++ " version " ++ Version
          ++ (if String.eqb Expstring DefaultExpstring then EmptyString
              else if String.eqb Expstring EmptyString then EmptyString
              else " " ++ Expstring))
         ++ " buildID=" ++ buildID ++ newline)%string 0).
  { intros arg0 rest Hdevel. unfold versionFlag_Set, experiment.
    rewrite Hdevel. simpl andb. cbv iota.
    destruct (String.eqb Expstring DefaultExpstring);
      [|destruct (String.eqb Expstring EmptyString) eqn:E;
        [apply String.eqb_eq in E; subst Expstring|]];
      simpl; rewrite ?string_app_assoc; simpl;
      rewrite ?string_app_assoc; reflexivity. }
  repeat apply conj.
  - intros arg0.
    destruct (strip_directories arg0) as (dir & Hsplit & Hs & Hb & Hdir).
    exists dir, (after_last (after_last arg0 "/") "\").
    repeat split; try assumption.
    apply TrimSuffix_spec.
  - intros arg0 rest s line. subst line. split.
    { intros Hs Hdevel. subst s. now apply Hfull. }
    intros Hother. unfold versionFlag_Set, experiment.
    assert (Hcond : String.eqb s "full" && strings_HasPrefix Version "devel"
                    = false).
    { destruct Hother as [Hs|Hd].
      - now rewrite (proj2 (String.eqb_neq s "full") Hs).
      - rewrite Hd. apply andb_false_r. }
    rewrite Hcond.
    destruct (String.eqb Expstring DefaultExpstring);
      [|destruct (String.eqb Expstring EmptyString) eqn:E;
        [apply String.eqb_eq in E; subst Expstring|]];
      simpl; rewrite ?string_app_assoc; simpl;
      rewrite ?string_app_assoc; reflexivity.
  - intros rest Hdevel. rewrite Hfull by exact Hdevel.
    simpl. rewrite ?string_app_assoc. reflexivity.
Qed.

Lemma versionFlag_Set_report_witness :
  versionFlag_Set "devel +abc123" "fieldtrack" EmptyString "xyz"
    ["/usr/local/bin/tool.exe"%string] "full"
  = Exited ("tool version devel +abc123 fieldtrack buildID=xyz" ++ newline) 0
  /\ versionFlag_Set "go1.10" "fieldtrack" "fieldtrack" "xyz"
       ["C:\go\bin\tool.exe"%string] "full"
     = Exited ("tool version go1.10" ++ newline) 0.
Proof.
  split.
  - apply (proj2 (proj2 (versionFlag_Set_report
                           "devel +abc123" "fieldtrack" EmptyString "xyz"))
             []).
    reflexivity.
  - apply (proj2 (proj1 (proj2 (versionFlag_Set_report
                                  "go1.10" "fieldtrack" "fieldtrack" "xyz"))
                    "C:\go\bin\tool.exe"%string [] "full"%string)).
    right. reflexivity.
Defined.

(** * Further properties *)

(** ** The scan of [buildargv] *)

Module CursorFacts.
Import Tokenizer TokenizerFacts Cursor.

Lemma tokens_app (a b : list byte) :
  forall st cur,
    tokens (a ++ b) st cur
    = completed a st cur
      ++ tokens b (fst (pending a st cur)) (snd (pending a st cur)).
Proof.
  induction a as [|ch a IH]; intros st cur; simpl; [reflexivity|].
  destruct cur as [arg|].
  - destruct (ends_argument st ch); simpl; now rewrite IH.
  - destruct (ISSPACE ch); now rewrite IH.
Qed.

Lemma tokens_completed (a : list byte) st cur :
  tokens a st cur
  = completed a st cur
    ++ match snd (pending a st cur) with Some arg => [arg] | None => [] end.
Proof.
  rewrite <- (app_nil_r a) at 1. rewrite tokens_app. reflexivity.
Qed.

Lemma pending_flags (a : list byte) :
  forall st cur arg0,
    fst (pending a st cur) = fst (last (snapshots a st cur) (st, arg0)).
Proof.
  induction a as [|ch a IH]; intros st cur arg0; simpl; [reflexivity|].
  destruct cur as [arg|].
  - destruct (ends_argument st ch); [apply IH|].
    rewrite last_cons_default.
    rewrite (IH _ _ (snd (scan_byte st arg ch))).
    now rewrite <- surjective_pairing.
  - destruct (ISSPACE ch); [apply IH|].
    rewrite last_cons_default.
    rewrite (IH _ _ (snd (scan_byte st EmptyString ch))).
    now rewrite <- surjective_pairing.
Qed.

Lemma unterminated_pending (data : list byte) :
  unterminated (buildargv_hist data)
  = flagged (fst (pending data no_flags None)).
Proof.
  unfold unterminated, final_flags. rewrite buildargv_hist_cursor.
  now rewrite (pending_flags data no_flags None EmptyString).
Qed.

Lemma unflagged_no_flags (st : flags) : flagged st = false -> st = no_flags.
Proof.
  destruct st as [sq dq bs]. unfold flagged; simpl.
  destruct sq, dq, bs; simpl; intros H; try discriminate H; reflexivity.
Qed.

Lemma tokens_whitespace_after (ws : list byte) (cur : option string) :
  forallb ISSPACE ws = true ->
  tokens ws no_flags cur
  = match cur with Some arg => [arg] | None => [] end.
Proof.
  destruct ws as [|ch ws]; simpl; [reflexivity|].
  intros H. apply andb_true_iff in H as [Hch Hws].
  unfold ends_argument. rewrite Hch. simpl.
  rewrite (tokens_all_whitespace ws no_flags Hws). now destruct cur.
Qed.

Lemma tokens_leading_whitespace (ws rest : list byte) st :
  forallb ISSPACE ws = true ->
  tokens (ws ++ rest) st None = tokens rest st None.
Proof.
  induction ws as [|ch ws IH]; simpl; [reflexivity|].
  intros H. apply andb_true_iff in H as [Hch Hws]. rewrite Hch. now apply IH.
Qed.

End CursorFacts.

Import Cursor CursorFacts.

(** X1.  On a buffer of ASCII bytes without quotes and backslashes
    [buildargv] returns exactly the whitespace-split words of the buffer,
    in order, each as the string of its bytes. *)
Theorem buildargv_ascii_words (data : list byte) :
  forallb plain data = true ->
  forallb is_ascii data = true ->
  buildargv data = map string_of_bytes (fields data).
Proof. apply buildargv_plain_ascii. Qed.

Lemma buildargv_ascii_words_witness :
  buildargv (list_byte_of_string "  -o out.o	-I /usr/include ")
  = map string_of_bytes
      (fields (list_byte_of_string "  -o out.o	-I /usr/include ")).
Proof.
  apply (buildargv_ascii_words
           (list_byte_of_string "  -o out.o	-I /usr/include "));
    reflexivity.
Defined.

(** X2.  Whitespace before the first argument is skipped, whatever follows
    it; whitespace after a buffer that does not end inside a quote or after
    an unconsumed backslash adds nothing. *)
Theorem buildargv_surrounding_whitespace :
  (forall ws data,
      forallb ISSPACE ws = true -> buildargv (ws ++ data) = buildargv data)
  /\ (forall data ws,
      forallb ISSPACE ws = true ->
      unterminated (buildargv_hist data) = false ->
      buildargv (data ++ ws) = buildargv data).
Proof.
  split.
  - intros ws data H. rewrite !buildargv_cursor.
    now apply tokens_leading_whitespace.
  - intros data ws Hws Hend. rewrite !buildargv_cursor.
    rewrite unterminated_pending in Hend.
    apply unflagged_no_flags in Hend.
    rewrite tokens_app, Hend, (tokens_whitespace_after ws _ Hws).
    symmetry. apply tokens_completed.
Qed.

Lemma buildargv_surrounding_whitespace_witness :
  buildargv (list_byte_of_string "  " ++ list_byte_of_string "'a b' c")
  = buildargv (list_byte_of_string "'a b' c")
  /\ buildargv (list_byte_of_string "'a b' c" ++ list_byte_of_string " 	")
     = buildargv (list_byte_of_string "'a b' c").
Proof.
  destruct buildargv_surrounding_whitespace as [Hlead Htrail].
  split.
  - apply Hlead. reflexivity.
  - apply Htrail; reflexivity.
Defined.

(** X3.  Two buffers joined by a whitespace byte are tokenized separately:
    when the first buffer does not end inside a quote or after an
    unconsumed backslash, the arguments of the joined buffer are those of
    the first followed by those of the second. *)
Theorem buildargv_concatenation (a b : list byte) (sp : byte) :
  unterminated (buildargv_hist a) = false ->
  ISSPACE sp = true ->
  buildargv (a ++ sp :: b) = buildargv a ++ buildargv b.
Proof.
  intros Hend Hsp. rewrite !buildargv_cursor.
  rewrite unterminated_pending in Hend. apply unflagged_no_flags in Hend.
  rewrite tokens_app, Hend, (tokens_completed a).
  rewrite <- app_assoc. f_equal.
  simpl. unfold ends_argument. rewrite Hsp. simpl.
  now destruct (snd (pending a no_flags None)).
Qed.

Lemma buildargv_concatenation_witness :
  buildargv (list_byte_of_string "-a 'b c'" ++ "010"%byte
             :: list_byte_of_string "d\ e")
  = buildargv (list_byte_of_string "-a 'b c'")
    ++ buildargv (list_byte_of_string "d\ e").
Proof.
  apply (buildargv_concatenation (list_byte_of_string "-a 'b c'")
           (list_byte_of_string "d\ e") "010"%byte); reflexivity.
Defined.

(** *** Escaped words *)

Lemma tokens_escaped (w rest : list byte) :
  forall st arg,
    bsquote st = false ->
    tokens (backslash_escape w ++ rest) st (Some arg)
    = tokens rest st (Some (arg ++ accumulate w)%string).
Proof.
  induction w as [|ch w IH]; intros st arg Hbs; simpl.
  - now rewrite string_app_nil_r.
  - destruct st as [sq dq bs]. simpl in Hbs. subst bs.
    change (scan_byte (mkFlags sq dq false) arg "\")
      with (mkFlags sq dq true, arg).
    cbn [fst snd]. unfold ends_argument. simpl negb. rewrite andb_false_r.
    change (scan_byte (mkFlags sq dq true) arg ch)
      with (mkFlags sq dq false, (arg ++ string_of_byte ch)%string).
    cbn [fst snd]. rewrite IH by reflexivity.
    now rewrite string_app_assoc.
Qed.

(** X4.  A word written with a backslash before each byte is read back as
    one argument holding the [string] conversion of each byte of the word,
    whatever the bytes are (whitespace, quotes, backslashes); this holds
    inside single quotes as well, where a backslash still escapes. *)
Theorem buildargv_backslash_escape (w : list byte) :
  w <> [] ->
  buildargv (backslash_escape w) = [accumulate w]
  /\ buildargv ("'"%byte :: backslash_escape w ++ ["'"%byte]) = [accumulate w].
Proof.
  intros Hne. rewrite !buildargv_cursor. split.
  - destruct w as [|ch w]; [congruence|].
    change (backslash_escape (ch :: w))
      with ("\"%byte :: ch :: backslash_escape w).
    cbn [tokens]. change (ISSPACE "\") with false. cbv iota.
    change (scan_byte no_flags EmptyString "\")
      with (mkFlags false false true, EmptyString).
    cbn [fst snd tokens]. unfold ends_argument at 1. simpl negb.
    rewrite !andb_false_r.
    rewrite <- (app_nil_r (backslash_escape w)).
    change (fst (scan_byte (mkFlags false false true) EmptyString ch))
      with no_flags.
    change (snd (scan_byte (mkFlags false false true) EmptyString ch))
      with (EmptyString ++ string_of_byte ch)%string.
    rewrite tokens_escaped by reflexivity. simpl.
    reflexivity.
  - simpl. rewrite tokens_escaped by reflexivity. reflexivity.
Qed.

Lemma buildargv_backslash_escape_witness :
  buildargv (backslash_escape (list_byte_of_string "a 'b\"))
  = ["a 'b\"%string]
  /\ buildargv ("'"%byte :: backslash_escape (list_byte_of_string "a 'b\")
                ++ ["'"%byte])
     = ["a 'b\"%string].
Proof.
  apply (buildargv_backslash_escape (list_byte_of_string "a 'b\")).
  discriminate.
Defined.

(** *** What a buffer without quotes and backslashes yields *)

Lemma string_of_byte_nonempty (ch : byte) : string_of_byte ch <> EmptyString.
Proof.
  unfold string_of_byte. destruct (Byte.to_N ch <? 128)%N; discriminate.
Qed.

Lemma string_app_nonempty_r (s t : string) :
  t <> EmptyString -> (s ++ t)%string <> EmptyString.
Proof.
  destruct s; simpl; [tauto | discriminate].
Qed.

Lemma concat_nil_cons (arg : string) (args : list string) :
  String.concat EmptyString (arg :: args)
  = (arg ++ String.concat EmptyString args)%string.
Proof.
  destruct args as [|arg' args]; simpl; [now rewrite string_app_nil_r|].
  reflexivity.
Qed.

Lemma tokens_plain_content (rest : list byte) :
  forallb plain rest = true ->
  (forall arg,
      String.concat EmptyString (tokens rest no_flags (Some arg))
      = (arg ++ accumulate (filter (fun ch => negb (ISSPACE ch)) rest))%string
      /\ (arg <> EmptyString ->
          Forall (fun a => a <> EmptyString) (tokens rest no_flags (Some arg))))
  /\ String.concat EmptyString (tokens rest no_flags None)
     = accumulate (filter (fun ch => negb (ISSPACE ch)) rest)
  /\ Forall (fun a => a <> EmptyString) (tokens rest no_flags None).
Proof.
  induction rest as [|ch rest IH]; intros Hplain.
  - simpl. repeat split; try constructor.
    + now rewrite string_app_nil_r.
    + assumption.
    + constructor.
  - simpl in Hplain. apply andb_true_iff in Hplain as [Hch Hrest].
    destruct (IH Hrest) as (IHsome & IHcat & IHne).
    cbn [tokens filter]. unfold ends_argument. simpl negb.
    rewrite !andb_true_r.
    destruct (ISSPACE ch) eqn:Hsp; cbn [negb].
    + repeat split.
      * rewrite concat_nil_cons. now rewrite IHcat.
      * intros Harg. constructor; assumption.
      * exact IHcat.
      * exact IHne.
    + assert (Hstep : forall arg,
          scan_byte no_flags arg ch
          = (no_flags, (arg ++ string_of_byte ch)%string))
        by (intros arg; now apply scan_byte_plain).
      repeat split.
      * rewrite Hstep. cbn [fst snd].
        rewrite (proj1 (IHsome _)). cbn [accumulate].
        now rewrite string_app_assoc.
      * intros _. rewrite Hstep. cbn [fst snd].
        apply (proj2 (IHsome _)).
        apply string_app_nonempty_r, string_of_byte_nonempty.
      * rewrite Hstep. cbn [fst snd].
        rewrite (proj1 (IHsome _)). reflexivity.
      * rewrite Hstep. cbn [fst snd].
        apply (proj2 (IHsome _)).
        apply string_app_nonempty_r, string_of_byte_nonempty.
Qed.

(** X5.  On a buffer without quotes and backslashes no returned argument
    is empty, and the returned arguments put end to end are the [string]
    conversions of the bytes of the buffer that are not whitespace, in
    order: the scan drops whitespace and nothing else. *)
Theorem buildargv_plain_content (data : list byte) :
  forallb plain data = true ->
  Forall (fun arg => arg <> EmptyString) (buildargv data)
  /\ String.concat EmptyString (buildargv data)
     = accumulate (filter (fun ch => negb (ISSPACE ch)) data).
Proof.
  intros H. rewrite buildargv_cursor.
  destruct (tokens_plain_content data H) as (_ & Hcat & Hne).
  split; assumption.
Qed.

Lemma buildargv_plain_content_witness :
  Forall (fun arg => arg <> EmptyString)
    (buildargv (list_byte_of_string " -x  -y=1 "))
  /\ String.concat EmptyString (buildargv (list_byte_of_string " -x  -y=1 "))
     = "-x-y=1"%string.
Proof.
  apply (buildargv_plain_content (list_byte_of_string " -x  -y=1 ")).
  reflexivity.
Defined.

(** *** [consume_whitespace] *)

Lemma consume_whitespace_for_spec (data : list byte) (n : nat) :
  forall i,
    n = List.length data - i -> i <= List.length data ->
    let r := consume_whitespace_for n i data in
    i <= r <= List.length data
    /\ (forall j, i <= j < r -> ISSPACE (nth j data "000"%byte) = true)
    /\ (r < List.length data -> ISSPACE (nth r data "000"%byte) = false).
Proof.
  induction n as [|n IH]; intros i Hn Hi; cbn zeta; simpl.
  - repeat split; intros; lia.
  - destruct (ISSPACE (nth i data "000"%byte)) eqn:E; simpl.
    + destruct (IH (S i) ltac:(lia) ltac:(lia)) as (Hr & Hws & Hstop).
      repeat split; try lia.
      * intros j Hj. destruct (Nat.eq_dec j i) as [->|Hne]; [exact E|].
        apply Hws. lia.
      * exact Hstop.
    + repeat split; try lia. intros _. exact E.
Qed.

(** X6.  [consume_whitespace(idx, data)] returns the first index from
    [idx] on that holds a byte that is not whitespace, or [len(data)] when
    there is none; called with an index at or past the end it returns
    [len(data)]. *)
Theorem consume_whitespace_spec (idx : nat) (data : list byte) :
  (idx <= List.length data ->
   idx <= consume_whitespace idx data <= List.length data
   /\ (forall j, idx <= j < consume_whitespace idx data ->
                 ISSPACE (nth j data "000"%byte) = true)
   /\ (consume_whitespace idx data < List.length data ->
       ISSPACE (nth (consume_whitespace idx data) data "000"%byte) = false))
  /\ (List.length data <= idx -> consume_whitespace idx data = List.length data).
Proof.
  split.
  - intros Hidx. unfold consume_whitespace.
    now apply consume_whitespace_for_spec.
  - intros Hidx. unfold consume_whitespace.
    replace (List.length data - idx) with 0 by lia. reflexivity.
Qed.

Lemma consume_whitespace_spec_witness :
  consume_whitespace 1 (list_byte_of_string "a  b") = 3
  /\ consume_whitespace 9 (list_byte_of_string "a  b") = 4.
Proof.
  destruct (consume_whitespace_spec 1 (list_byte_of_string "a  b"))
    as [Hin _].
  destruct (consume_whitespace_spec 9 (list_byte_of_string "a  b"))
    as [_ Hout].
  split.
  - destruct (Hin ltac:(simpl; lia)) as (_ & _ & _). reflexivity.
  - apply Hout. simpl. lia.
Defined.

(** *** Bounds on the result *)

Lemma scan_byte_size (st : flags) (arg : string) (ch : byte) :
  String.length (snd (scan_byte st arg ch)) <= String.length arg + 2.
Proof.
  assert (Hch : String.length (arg ++ string_of_byte ch)
                <= String.length arg + 2).
  { rewrite string_length_app. unfold string_of_byte.
    destruct (Byte.to_N ch <? 128)%N; simpl; lia. }
  unfold scan_byte.
  destruct (bsquote st), (Byte.eqb ch "\"), (squote st), (dquote st),
    (Byte.eqb ch "'"), (Byte.eqb ch "034"); simpl; lia.
Qed.

Lemma tokens_bounds (rest : list byte) :
  forall st,
    (forall arg,
        2 * List.length (tokens rest st (Some arg)) <= List.length rest + 2
        /\ total_size (tokens rest st (Some arg))
           <= String.length arg + 2 * List.length rest)
    /\ 2 * List.length (tokens rest st None) <= List.length rest + 1
    /\ total_size (tokens rest st None) <= 2 * List.length rest.
Proof.
  induction rest as [|ch rest IH]; intros st.
  - simpl. repeat split; lia.
  - assert (Hstep : forall arg,
        2 * List.length (tokens rest (fst (scan_byte st arg ch))
                           (Some (snd (scan_byte st arg ch))))
        <= List.length rest + 2
        /\ total_size (tokens rest (fst (scan_byte st arg ch))
                         (Some (snd (scan_byte st arg ch))))
           <= String.length arg + 2 + 2 * List.length rest).
    { intros arg.
      destruct (proj1 (IH (fst (scan_byte st arg ch)))
                  (snd (scan_byte st arg ch))) as [Hn Hs].
      pose proof (scan_byte_size st arg ch). split; lia. }
    destruct (IH st) as (_ & Hn & Hs).
    cbn [tokens List.length]. repeat split.
    + destruct (ends_argument st ch); [simpl; lia|].
      destruct (Hstep arg); lia.
    + destruct (ends_argument st ch); [simpl; lia|].
      destruct (Hstep arg); lia.
    + destruct (ISSPACE ch); [lia|].
      destruct (Hstep EmptyString); lia.
    + destruct (ISSPACE ch); [lia|].
      destruct (Hstep EmptyString) as [_ H]. simpl in H. lia.
Qed.

(** X7.  [buildargv] returns at most one argument for every two bytes of
    the buffer, rounded up, and the returned arguments hold at most twice
    as many bytes as the buffer. *)
Theorem buildargv_bounds (data : list byte) :
  2 * List.length (buildargv data) <= List.length data + 1
  /\ total_size (buildargv data) <= 2 * List.length data.
Proof.
  rewrite buildargv_cursor.
  destruct (tokens_bounds data no_flags) as (_ & Hn & Hs). split; assumption.
Qed.

(** ** The expansion loop of [Flagparse] *)

Section ExpansionLoop.

Variable File : Type.
Variable error : Type.
Variable os_Open : string -> option File * option error.
Variable is_not_exist : error -> bool.
Variable ioutil_ReadAll : option File -> list byte * option error.
Variable File_Close : option File -> option error.

Local Abbreviation expand' :=
  (expand File error os_Open is_not_exist ioutil_ReadAll File_Close).
Local Abbreviation Flagparse' :=
  (Flagparse File error os_Open is_not_exist ioutil_ReadAll File_Close).

(** X8.  Running the loop over two argument lists one after the other is
    running it over the first and, when that does not stop the process,
    going on over the second with the arguments and the log reached; a
    fatal stop in the first list is the outcome, whatever the second list
    holds. *)
Theorem expand_sequence (first second : list string) :
  forall args log,
    expand' (first ++ second) args log
    = match expand' first args log with
      | Returned args' log' => expand' second args' log'
      | Fatal log' msg => Fatal log' msg
      end.
Proof.
  induction first as [|arg first IH]; intros args log; [reflexivity|].
  cbn [app Expander.expand].
  destruct (negb (strings_HasPrefix arg "@") || (String.length arg <? 1));
    [apply IH|].
  destruct (os_Open (string_from 1 arg)) as [file err].
  destruct (os_IsNotExist error is_not_exist err); [apply IH|].
  destruct (ioutil_ReadAll file) as [contents [e|]]; [reflexivity|].
  destruct (File_Close file); [reflexivity | apply IH].
Qed.

(** X9.  When no argument begins with [@], [Flagparse] leaves [os.Args] as
    it is and logs nothing, whatever the file system holds. *)
Theorem Flagparse_without_response_files (os_Args : list string) :
  forallb (fun arg => negb (strings_HasPrefix arg "@")) os_Args = true ->
  Flagparse' os_Args = Returned os_Args [].
Proof.
  intros H. unfold Flagparse.
  assert (Hgen : forall args log,
             expand' os_Args args log = Returned (args ++ os_Args) log).
  { induction os_Args as [|arg rest IH]; intros args log; simpl.
    - now rewrite app_nil_r.
    - simpl in H. apply andb_true_iff in H as [Harg Hrest].
      rewrite Harg. simpl. rewrite (IH Hrest). now rewrite <- app_assoc. }
  apply Hgen.
Qed.

(** The loop only appends to [args] and to the log. *)
Lemma expand_appends (os_Args : list string) :
  forall args log,
    match expand' os_Args args log with
    | Returned args' log' =>
        (exists more, args' = args ++ more)
        /\ (exists later, log' = log ++ later)
    | Fatal log' _ => exists later, log' = log ++ later
    end.
Proof.
  induction os_Args as [|arg rest IH]; intros args log.
  - simpl. split; exists []; now rewrite app_nil_r.
  - assert (Hcopy : forall log1,
        (exists later, log1 = log ++ later) ->
        match expand' rest (args ++ [arg]) log1 with
        | Returned args' log' =>
            (exists more, args' = args ++ more)
            /\ (exists later, log' = log ++ later)
        | Fatal log' _ => exists later, log' = log ++ later
        end).
    { intros log1 [later1 ->]. specialize (IH (args ++ [arg]) (log ++ later1)).
      destruct (expand' rest (args ++ [arg]) (log ++ later1)).
      - destruct IH as [[more ->] [later ->]]. split.
        + exists ([arg] ++ more). now rewrite app_assoc.
        + exists (later1 ++ later). now rewrite app_assoc.
      - destruct IH as [later ->]. exists (later1 ++ later).
        now rewrite app_assoc. }
    cbn [Expander.expand].
    destruct (negb (strings_HasPrefix arg "@") || (String.length arg <? 1)).
    { apply Hcopy. exists []. now rewrite app_nil_r. }
    destruct (os_Open (string_from 1 arg)) as [file err].
    destruct (os_IsNotExist error is_not_exist err).
    { apply Hcopy. eexists. reflexivity. }
    destruct (ioutil_ReadAll file) as [contents [e|]].
    { exists []. now rewrite app_nil_r. }
    destruct (File_Close file).
    { exists []. now rewrite app_nil_r. }
    rewrite fold_left_append. specialize (IH (args ++ buildargv contents) log).
    destruct (expand' rest (args ++ buildargv contents) log).
    + destruct IH as [[more ->] Hlog]. split; [|exact Hlog].
      exists (buildargv contents ++ more). now rewrite app_assoc.
    + exact IH.
Qed.

End ExpansionLoop.

Lemma Flagparse_without_response_files_witness :
  SampleOS.Flagparse_in
    [("-v"%string, SampleOS.Regular (list_byte_of_string "zzz"))]
    ["prog"; "-v"; "a@b"]%string
  = Returned ["prog"; "-v"; "a@b"]%string [].
Proof.
  unfold SampleOS.Flagparse_in.
  apply Flagparse_without_response_files. reflexivity.
Defined.

(** X10.  The first response file whose read or close fails stops the
    process: when the arguments before it are copied or expanded without
    failure, the outcome is the fatal message with the name of that file
    and the error of the failed call, the log holds the diagnostics of the
    arguments before it, and the arguments after it play no part. *)
Theorem Flagparse_first_failure
    (File error : Type) (os_Open : string -> option File * option error)
    (is_not_exist : error -> bool)
    (ioutil_ReadAll : option File -> list byte * option error)
    (File_Close : option File -> option error)
    (before after : list string) (arg : string) :
  (forall a, In a before -> strings_HasPrefix a "@" = true ->
             missing File error os_Open is_not_exist a
             \/ resolves File error os_Open ioutil_ReadAll File_Close a) ->
  strings_HasPrefix arg "@" = true ->
  os_IsNotExist error is_not_exist (snd (os_Open (string_from 1 arg))) = false ->
  (forall contents e,
      ioutil_ReadAll (fst (os_Open (string_from 1 arg))) = (contents, Some e) ->
      Flagparse File error os_Open is_not_exist ioutil_ReadAll File_Close
        (before ++ arg :: after)
      = Fatal (flat_map (diagnostic File error os_Open is_not_exist) before)
          (mkMessage "Unable to read contents of response file (%s): %#v"
             (string_from 1 arg) (Some e)))
  /\ (forall contents e,
      ioutil_ReadAll (fst (os_Open (string_from 1 arg))) = (contents, None) ->
      File_Close (fst (os_Open (string_from 1 arg))) = Some e ->
      Flagparse File error os_Open is_not_exist ioutil_ReadAll File_Close
        (before ++ arg :: after)
      = Fatal (flat_map (diagnostic File error os_Open is_not_exist) before)
          (mkMessage "Unable to close response file (%s): %#v"
             (string_from 1 arg) (Some e))).
Proof.
  intros Hbefore Hat Hexist. unfold Flagparse.
  split; intros contents e; intros;
    rewrite expand_sequence, expand_in_order by exact Hbefore.
  - now apply expand_read_failure with (contents := contents).
  - now apply expand_close_failure with (contents := contents).
Qed.

Lemma Flagparse_first_failure_witness :
  SampleOS.Flagparse_in
    [("bad"%string, SampleOS.ReadFails []);
     ("worse"%string, SampleOS.CloseFails [])]
    ["prog"; "@nofile"; "@bad"; "@worse"]%string
  = Fatal
      [mkMessage ("Unable to open response file (%s): %#v" ++ newline)
         "nofile" (Some SampleOS.ENOENT)]
      (mkMessage "Unable to read contents of response file (%s): %#v"
         "bad" (Some SampleOS.EIO))
  /\ SampleOS.Flagparse_in
       [("worse"%string, SampleOS.CloseFails [])]
       ["prog"; "@worse"; "@nofile"]%string
     = Fatal []
         (mkMessage "Unable to close response file (%s): %#v"
            "worse" (Some SampleOS.EIO)).
Proof.
  unfold SampleOS.Flagparse_in. split.
  - refine (proj1 (Flagparse_first_failure SampleOS.entry SampleOS.errno
                     (SampleOS.os_Open
                        [("bad"%string, SampleOS.ReadFails []);
                         ("worse"%string, SampleOS.CloseFails [])])
                     SampleOS.is_not_exist SampleOS.ioutil_ReadAll
                     SampleOS.File_Close
                     ["prog"; "@nofile"]%string ["@worse"%string] "@bad"
                     _ eq_refl eq_refl) [] SampleOS.EIO eq_refl).
    intros a [<-|[<-|[]]] Hat; [discriminate Hat | left; reflexivity].
  - refine (proj2 (Flagparse_first_failure SampleOS.entry SampleOS.errno
                     (SampleOS.os_Open
                        [("worse"%string, SampleOS.CloseFails [])])
                     SampleOS.is_not_exist SampleOS.ioutil_ReadAll
                     SampleOS.File_Close
                     ["prog"%string] ["@nofile"%string] "@worse"
                     _ eq_refl eq_refl) [] SampleOS.EIO eq_refl eq_refl).
    intros a [<-|[]] Hat. discriminate Hat.
Defined.

(** X11.  The error of a failed [os.Open] is used only to test whether the
    file does not exist and, in that case, to log it: two file systems
    whose [os.Open] return the same files, agree on which calls fail with
    a does-not-exist error and return the same such errors give the same
    outcome of [Flagparse], however their other open errors differ. *)
Theorem Flagparse_open_error_unused
    (File error : Type) (open1 open2 : string -> option File * option error)
    (is_not_exist : error -> bool)
    (ioutil_ReadAll : option File -> list byte * option error)
    (File_Close : option File -> option error) (os_Args : list string) :
  (forall path,
      fst (open1 path) = fst (open2 path)
      /\ os_IsNotExist error is_not_exist (snd (open1 path))
         = os_IsNotExist error is_not_exist (snd (open2 path))
      /\ (os_IsNotExist error is_not_exist (snd (open1 path)) = true ->
          snd (open1 path) = snd (open2 path))) ->
  Flagparse File error open1 is_not_exist ioutil_ReadAll File_Close os_Args
  = Flagparse File error open2 is_not_exist ioutil_ReadAll File_Close os_Args.
Proof.
  intros Hsame. unfold Flagparse. now apply expand_ignores_open_error.
Qed.

Lemma Flagparse_open_error_unused_witness :
  Flagparse SampleOS.entry SampleOS.errno
    (SampleOS.os_Open [("secret"%string, SampleOS.Denied)])
    SampleOS.is_not_exist SampleOS.ioutil_ReadAll SampleOS.File_Close
    ["prog"; "@secret"; "@nofile"]%string
  = Flagparse SampleOS.entry SampleOS.errno
      (fun path =>
         match SampleOS.os_Open [("secret"%string, SampleOS.Denied)] path with
         | (None, Some SampleOS.EACCES) => (None, Some SampleOS.EIO)
         | opened => opened
         end)
      SampleOS.is_not_exist SampleOS.ioutil_ReadAll SampleOS.File_Close
      ["prog"; "@secret"; "@nofile"]%string.
Proof.
  apply Flagparse_open_error_unused. intros path.
  destruct (SampleOS.os_Open [("secret"%string, SampleOS.Denied)] path)
    as [[file|] [[]|]]; repeat split; try reflexivity;
    simpl in *; discriminate.
Defined.

(** X12.  A response file that holds nothing but whitespace makes its
    reference disappear: when it is opened, read and closed without error,
    [Flagparse] gives the outcome it gives on the argument list without
    the reference. *)
Theorem Flagparse_blank_response_file
    (File error : Type) (os_Open : string -> option File * option error)
    (is_not_exist : error -> bool)
    (ioutil_ReadAll : option File -> list byte * option error)
    (File_Close : option File -> option error)
    (before after : list string) (arg : string)
    (file : File) (contents : list byte) :
  strings_HasPrefix arg "@" = true ->
  os_Open (string_from 1 arg) = (Some file, None) ->
  ioutil_ReadAll (Some file) = (contents, None) ->
  File_Close (Some file) = None ->
  forallb ISSPACE contents = true ->
  Flagparse File error os_Open is_not_exist ioutil_ReadAll File_Close
    (before ++ arg :: after)
  = Flagparse File error os_Open is_not_exist ioutil_ReadAll File_Close
      (before ++ after).
Proof.
  intros Hat Hopen Hread Hclose Hblank. unfold Flagparse.
  rewrite !expand_sequence.
  destruct (expand File error os_Open is_not_exist ioutil_ReadAll File_Close
              before [] []) as [args log|]; [|reflexivity].
  rewrite (expand_response_file _ _ _ _ _ _ arg after args log contents);
    rewrite ?Hopen; cbn [fst snd os_IsNotExist]; try assumption;
    try reflexivity.
  rewrite buildargv_cursor, (tokens_all_whitespace contents no_flags Hblank).
  now rewrite app_nil_r.
Qed.

Lemma Flagparse_blank_response_file_witness :
  SampleOS.Flagparse_in
    [("blank"%string, SampleOS.Regular (list_byte_of_string "  	 "))]
    (["prog"; "-a"]%string ++ "@blank"%string :: ["-b"%string])
  = SampleOS.Flagparse_in
      [("blank"%string, SampleOS.Regular (list_byte_of_string "  	 "))]
      (["prog"; "-a"]%string ++ ["-b"%string]).
Proof.
  unfold SampleOS.Flagparse_in.
  apply (Flagparse_blank_response_file SampleOS.entry SampleOS.errno
           (SampleOS.os_Open
              [("blank"%string, SampleOS.Regular (list_byte_of_string "  	 "))])
           SampleOS.is_not_exist SampleOS.ioutil_ReadAll SampleOS.File_Close
           ["prog"; "-a"]%string ["-b"%string] "@blank"
           (SampleOS.Regular (list_byte_of_string "  	 "))
           (list_byte_of_string "  	 ")); reflexivity.
Defined.

(** X13.  [Flagparse] keeps the program path: when [os.Args[0]] does not
    begin with [@] and the loop runs to its end, the new [os.Args] begins
    with the same [os.Args[0]], so the line [versionFlag.Set] prints is
    the same before and after the expansion. *)
Theorem Flagparse_keeps_program_path
    (File error : Type) (os_Open : string -> option File * option error)
    (is_not_exist : error -> bool)
    (ioutil_ReadAll : option File -> list byte * option error)
    (File_Close : option File -> option error)
    (arg0 : string) (rest args : list string)
    (log : list (message error)) :
  strings_HasPrefix arg0 "@" = false ->
  Flagparse File error os_Open is_not_exist ioutil_ReadAll File_Close
    (arg0 :: rest) = Returned args log ->
  (exists more, args = arg0 :: more)
  /\ (forall Version Expstring DefaultExpstring buildID s,
         versionFlag_Set Version Expstring DefaultExpstring buildID args s
         = versionFlag_Set Version Expstring DefaultExpstring buildID
             (arg0 :: rest) s).
Proof.
  intros Hat Hrun. unfold Flagparse in Hrun.
  rewrite expand_plain_argument in Hrun by exact Hat.
  pose proof (expand_appends File error os_Open is_not_exist ioutil_ReadAll
                File_Close rest ([] ++ [arg0]) []) as Happ.
  rewrite Hrun in Happ. destruct Happ as [[more ->] _].
  split; [now exists more | reflexivity].
Qed.

Lemma Flagparse_keeps_program_path_witness :
  exists more, ["/bin/tool.exe"; "-x"; "-y=1"]%string
               = "/bin/tool.exe"%string :: more.
Proof.
  apply (Flagparse_keeps_program_path SampleOS.entry SampleOS.errno
           (SampleOS.os_Open
              [("resp"%string,
                SampleOS.Regular (list_byte_of_string "-x -y=1"))])
           SampleOS.is_not_exist SampleOS.ioutil_ReadAll SampleOS.File_Close
           "/bin/tool.exe" ["@resp"%string]
           ["/bin/tool.exe"; "-x"; "-y=1"]%string []); reflexivity.
Defined.

(** ** The counting flag *)

Import CountCalls.

Lemma int_wrap_succ (z : Z) : int_wrap (int_wrap z + 1) = int_wrap (z + 1).
Proof.
  unfold int_wrap.
  replace ((z + 2 ^ 63) mod 2 ^ 64 - 2 ^ 63 + 1 + 2 ^ 63)%Z
    with ((z + 2 ^ 63) mod 2 ^ 64 + 1)%Z by lia.
  rewrite Zplus_mod_idemp_l. f_equal. f_equal. lia.
Qed.

(** X14.  [n] calls of [Set] with the argument [true] add [n] to the stored
    count in [int] arithmetic: the count becomes [c + n] as long as that is
    at most the largest [int]. *)
Theorem count_Set_repeated (strconv_Atoi : string -> option Z)
    (n : nat) (c : Z) :
  count_after strconv_Atoi (repeat "true"%string n) (int_wrap c)
  = int_wrap (c + Z.of_nat n)
  /\ ((int_min <= c)%Z -> (c + Z.of_nat n <= int_max)%Z ->
      count_after strconv_Atoi (repeat "true"%string n) c
      = (c + Z.of_nat n)%Z).
Proof.
  assert (Hwrap : forall m z,
             count_after strconv_Atoi (repeat "true"%string m) (int_wrap z)
             = int_wrap (z + Z.of_nat m)).
  { induction m as [|m IH]; intros z.
    - simpl. f_equal. lia.
    - cbn [repeat]. unfold count_after in *. cbn [fold_left].
      change (fst (count_Set strconv_Atoi "true" (int_wrap z)))
        with (int_wrap (int_wrap z + 1)).
      rewrite int_wrap_succ, IH. f_equal. lia. }
  split; [apply Hwrap|].
  intros Hlo Hhi.
  rewrite <- (int_wrap_in_range c) at 1 by lia.
  rewrite Hwrap. apply int_wrap_in_range. lia.
Qed.

Lemma count_Set_repeated_witness :
  count_after decimal_Atoi (repeat "true"%string 5) 37 = 42%Z.
Proof.
  apply (proj2 (count_Set_repeated decimal_Atoi 5 37%Z));
    unfold int_min, int_max; lia.
Defined.

(** X15.  [Set] returns an error exactly for the arguments that are neither
    [true] nor [false] nor accepted by [strconv.Atoi], and such a call
    leaves the stored count as it was: the count after a sequence of calls
    is the count after the accepted calls alone. *)
Theorem count_Set_rejected (strconv_Atoi : string -> option Z) :
  (forall s c,
      accepted strconv_Atoi s = false <->
      snd (count_Set strconv_Atoi s c) <> None)
  /\ (forall s c,
         accepted strconv_Atoi s = false ->
         fst (count_Set strconv_Atoi s c) = c)
  /\ (forall calls c,
         count_after strconv_Atoi calls c
         = count_after strconv_Atoi (filter (accepted strconv_Atoi) calls) c).
Proof.
  assert (Hkeep : forall s c,
             accepted strconv_Atoi s = false ->
             fst (count_Set strconv_Atoi s c) = c).
  { intros s c. unfold accepted, count_Set.
    destruct (String.eqb s "true"), (String.eqb s "false"),
      (strconv_Atoi s); simpl; intros H; try discriminate H; reflexivity. }
  repeat apply conj.
  - intros s c. unfold accepted, count_Set.
    destruct (String.eqb s "true"), (String.eqb s "false"),
      (strconv_Atoi s); simpl; split; intros H;
      try discriminate H; try reflexivity; try congruence.
  - exact Hkeep.
  - intros calls. unfold count_after.
    induction calls as [|s calls IH]; intros c; [reflexivity|].
    cbn [fold_left filter].
    destruct (accepted strconv_Atoi s) eqn:E.
    + cbn [fold_left]. apply IH.
    + rewrite (Hkeep s c E). apply IH.
Qed.

Lemma count_Set_rejected_witness :
  fst (count_Set decimal_Atoi "3x" 7) = 7%Z
  /\ snd (count_Set decimal_Atoi "3x" 7) <> None.
Proof.
  destruct (count_Set_rejected decimal_Atoi) as (Herr & Hkeep & _).
  split.
  - apply Hkeep. reflexivity.
  - apply (proj1 (Herr "3x"%string 7%Z)). reflexivity.
Defined.
